(** * puzzle-js: transport server and storefront bootstrap

    A shallow embedding of [src/server.ts] (class [Server]) and
    [src/storefront.ts] (class [Storefront]), and the properties of the
    protocol negotiation, the custom headers, the close/rebuild cycle, the
    route event channel, the gateway readiness wait and the bootstrap
    pipeline.

    Objects are records of their fields; a method is a function from the
    object (and its arguments) to the updated object.  Objects that are
    shared by reference (the [Server] captured by the pubsub listener, the
    gateway objects captured by the ready listeners) live in a store and
    are named by their index.  Calls to the logger change nothing the
    classes read back and are left out. *)

From Stdlib Require Import ZArith.
From stdpp Require Import base option list gmap strings.

Local Open Scope string_scope.
Local Open Scope list_scope.
Local Open Scope nat_scope.

(** ** JavaScript values used by the two classes *)

(** [if (s)] on a string: the empty string is falsy. *)
Definition truthy_string (s : string) : bool :=
  if decide (s = "") then false else true.

(** A value that is [undefined] or a string ([process.env[name]],
    [string | null] paths). *)
Definition truthy_opt (v : option string) : bool :=
  match v with
  | Some s => truthy_string s
  | None => false
  end.

(** Certificate and key material: [undefined], a string or a [Buffer].
    A [Buffer] is an object and so always truthy. *)
Inductive KeyMaterial :=
  | km_undefined
  | km_string (s : string)
  | km_buffer (bytes : list Z).

Definition truthy_km (k : KeyMaterial) : bool :=
  match k with
  | km_undefined => false
  | km_string s => truthy_string s
  | km_buffer _ => true
  end.

(** ** enums.ts, types.ts, config.ts

    These files hold declarations only.  The enumerations list the members
    the two classes use; the constants of [config.ts] are the fields of
    [Config], over which every definition below is parametric. *)

Inductive TRANSFER_PROTOCOLS := H2 | SPDY | HTTP1.

Inductive HTTP_METHODS := GET | POST | PUT | DELETE | PATCH.

#[global] Instance TRANSFER_PROTOCOLS_eq_dec : EqDecision TRANSFER_PROTOCOLS.
Proof. solve_decision. Defined.

#[global] Instance HTTP_METHODS_eq_dec : EqDecision HTTP_METHODS.
Proof. solve_decision. Defined.

#[global] Instance KeyMaterial_eq_dec : EqDecision KeyMaterial.
Proof. solve_decision. Defined.

Record Config := {
  USE_MORGAN : bool;
  USE_HELMET : bool;
  BROTLI : bool;
  GLOBAL_REQUEST_TIMEOUT : Z;
  HEALTHCHECK_PATHS : list string;
  PUZZLE_DEBUGGER_LINK : string;
}.

(** [ISpdyConfiguration]: what the storefront configuration carries.  The
    list of protocols is always there; certificate and key may be
    [undefined] in a configuration that comes from plain JavaScript. *)
Record ISpdyConfiguration := {
  opt_cert : KeyMaterial;
  opt_key : KeyMaterial;
  opt_passphrase : option string;
  opt_protocols : list TRANSFER_PROTOCOLS;
}.

Record SpdyConnection := {
  windowSize : Z;
  autoSpdy31 : bool;
}.

Record SpdyOptions := {
  x_forwarded_for : bool;
  protocols : list TRANSFER_PROTOCOLS;
  connection : SpdyConnection;
}.

(** [INodeSpdyConfiguration]: what [Server] stores and hands to [spdy]. *)
Record INodeSpdyConfiguration := {
  cert : KeyMaterial;
  key : KeyMaterial;
  passphrase : option string;
  spdy : SpdyOptions;
}.

Record ICustomHeader := {
  header_key : string;
  header_value : string;
  isEnv : bool;
}.

#[global] Instance ICustomHeader_eq_dec : EqDecision ICustomHeader.
Proof. solve_decision. Defined.

(** [Array.prototype.includes] *)
Definition includes {A} `{EqDecision A} (l : list A) (x : A) : bool :=
  bool_decide (x ∈ l).

(** ** express: the application object

    An express application is its stack of layers, in registration
    order.  Handlers are named: the middlewares [Server] installs, the
    handlers [Storefront] registers, and [external] for a handler that
    comes from outside the two classes. *)

Inductive Handler :=
  | responseTime
  | morgan (format : string)
  | helmet
  | bodyParser_urlencoded
  | bodyParser_json
  | cookieParser
  | shrinkRay
  | compression
  | express_static (source : string) (staticOptions : option nat)
  | customHeadersMiddleware (customHeaders : list ICustomHeader)
  | debugScriptHandler
  | healthCheckHandler
  | pageGetHandler (page : string) (condition : option nat)
  | pagePostHandler (page : string)
  | external (id : nat).

#[global] Instance Handler_eq_dec : EqDecision Handler.
Proof. solve_decision. Defined.

(** [string | string[]] *)
Inductive RoutePath :=
  | path_one (p : string)
  | path_many (ps : list string).

#[global] Instance RoutePath_eq_dec : EqDecision RoutePath.
Proof. solve_decision. Defined.

Inductive Layer :=
  | Use (path : option string) (handler : Handler)
  | Route (path : RoutePath) (method : HTTP_METHODS)
      (middlewares : list Handler) (handler : Handler).

#[global] Instance Layer_eq_dec : EqDecision Layer.
Proof. solve_decision. Defined.

Record Express := { stack : list Layer }.

Definition express : Express := {| stack := [] |}.

Definition app_use (a : Express) (path : option string) (h : Handler) : Express :=
  {| stack := stack a ++ [Use path h] |}.

(** [app[method](path, middlewares, handler)] *)
Definition app_route (a : Express) (method : HTTP_METHODS) (path : RoutePath)
    (middlewares : list Handler) (h : Handler) : Express :=
  {| stack := stack a ++ [Route path method middlewares h] |}.

Definition is_route (l : Layer) : bool :=
  match l with
  | Route _ _ _ _ => true
  | Use _ _ => false
  end.

(** ** The listener objects of http, https and spdy *)

Inductive Transport :=
  | spdy_createServer (options : INodeSpdyConfiguration)
  | https_createServer (cert key : KeyMaterial)
  | app_listen.

(** The callbacks handed to [listen]: one of the caller's own, or the
    arrow function of [Storefront.init] that logs and then calls the [cb]
    given to [init], if any. *)
Inductive Callback :=
  | user_callback (id : nat)
  | storefront_listening (cb : option nat).

(** The last argument is [(e) => { cb && cb(e) }]. *)
Inductive ListenArg :=
  | arg_port (port : Z)
  | arg_host (host : string)
  | arg_callback (cb : option Callback).

Record Listener := {
  transport : Transport;
  listen_args : list ListenArg;
  timeout : option Z;
}.

Definition set_timeout (l : Listener) (t : Z) : Listener :=
  {| transport := transport l; listen_args := listen_args l; timeout := Some t |}.

(** What the process does to the network. *)
Inductive NetEffect :=
  | net_listen (l : Listener)
  | net_close (l : Listener).

(** ** server.ts *)

Module Server.

Record t := {
  app : Express;
  server : option Listener;
  spdyConfiguration : option INodeSpdyConfiguration;
  (** not a field of the class: the calls made on listener objects *)
  net : list NetEffect;
}.

Definition set_app (s : t) (a : Express) : t :=
  {| app := a; server := server s;
     spdyConfiguration := spdyConfiguration s; net := net s |}.

Definition set_server (s : t) (l : option Listener) : t :=
  {| app := app s; server := l;
     spdyConfiguration := spdyConfiguration s; net := net s |}.

Definition set_spdyConfiguration (s : t) (c : option INodeSpdyConfiguration) : t :=
  {| app := app s; server := server s;
     spdyConfiguration := c; net := net s |}.

Definition log_net (s : t) (e : NetEffect) : t :=
  {| app := app s; server := server s;
     spdyConfiguration := spdyConfiguration s; net := net s ++ [e] |}.

Definition morganLoggingLevels : list string :=
  [ "Date: [:date[clf]]";
    "IP: :remote-addr";
    "Client-IP: :req[client-ip]";
    "REQ: :method :url";
    "RES: :status :response-time ms";
    "UA: :user-agent";
    "x-correlationId: :req[x-correlationId]";
    "x-agentname: :req[x-agentname]";
    "referer: :req[referer]" ].

(** [Array.prototype.join] *)
Fixpoint join (sep : string) (l : list string) : string :=
  match l with
  | [] => ""
  | [x] => x
  | x :: rest => x +:+ sep +:+ join sep rest
  end.

Section WithConfig.
Context (cfg : Config).

(** [private addMiddlewares()] *)
Definition addMiddlewares (s : t) : t :=
  let a := app_use (app s) None responseTime in
  let a := if USE_MORGAN cfg
           then app_use a None (morgan (join "||" morganLoggingLevels))
           else a in
  let a := if USE_HELMET cfg then app_use a None helmet else a in
  let a := app_use a None bodyParser_urlencoded in
  let a := app_use a None bodyParser_json in
  let a := app_use a None cookieParser in
  let compressionMethod := if BROTLI cfg then shrinkRay else compression in
  set_app s (app_use a None compressionMethod).

(** The object the constructor builds, before it subscribes to the
    route event channel (the subscription is in [Process.new_Server]). *)
Definition construct : t :=
  addMiddlewares
    {| app := express; server := None; spdyConfiguration := None; net := [] |}.

(** [useProtocolOptions(options?)] *)
Definition useProtocolOptions (s : t) (options : option ISpdyConfiguration) : t :=
  match options with
  | Some options =>
      set_spdyConfiguration s (Some
        {| cert := opt_cert options;
           key := opt_key options;
           passphrase := opt_passphrase options;
           spdy := {| x_forwarded_for := true;
                      protocols := opt_protocols options;
                      connection := {| windowSize := 1024 * 1024;
                                       autoSpdy31 := false |} |} |})
  | None => s
  end.

(** [addUse(path, handler)] *)
Definition addUse (s : t) (path : option string) (handler : Handler) : t :=
  if truthy_opt path
  then set_app s (app_use (app s) path handler)
  else set_app s (app_use (app s) None handler).

(** [setStatic(path, source, staticOptions?)] *)
Definition setStatic (s : t) (path : option string) (source : string)
    (staticOptions : option nat) : t :=
  match staticOptions with
  | None => addUse s path (express_static source None)
  | Some o => addUse s path (express_static source (Some o))
  end.

(** [addRoute(path, method, handler, middlewares = [])] *)
Definition addRoute (s : t) (path : RoutePath) (method : HTTP_METHODS)
    (handler : Handler) (middlewares : list Handler) : t :=
  set_app s (app_route (app s) method path middlewares handler).

(** The argument list [listen] builds for the listener. *)
Definition listen_arguments (port : Z) (cb : option Callback) (ipv4 : bool)
    : list ListenArg :=
  let args := [arg_port port] in
  let args := if ipv4 then args ++ [arg_host "0.0.0.0"] else args in
  args ++ [arg_callback cb].

Definition start (s : t) (tr : Transport) (args : list ListenArg) : t :=
  let l := {| transport := tr; listen_args := args; timeout := None |} in
  log_net (set_server s (Some l)) (net_listen l).

(** [listen(port, cb?, ipv4?)] *)
Definition listen (s : t) (port : Z) (cb : option Callback) (ipv4 : bool) : t :=
  let args := listen_arguments port cb ipv4 in
  let s :=
    match spdyConfiguration s with
    | Some c =>
        if includes (protocols (spdy c)) H2 || includes (protocols (spdy c)) SPDY
        then start s (spdy_createServer c) args
        else if truthy_km (cert c) && truthy_km (key c)
             then start s (https_createServer (cert c) (key c)) args
             else start s app_listen args
    | None => start s app_listen args
    end in
  match server s with
  | Some l => set_server s (Some (set_timeout l (GLOBAL_REQUEST_TIMEOUT cfg)))
  | None => s
  end.

(** [addCustomHeaders(customHeaders?)] *)
Definition addCustomHeaders (s : t) (customHeaders : option (list ICustomHeader)) : t :=
  match customHeaders with
  | Some customHeaders => addUse s None (customHeadersMiddleware customHeaders)
  | None => s
  end.

(** [close()] *)
Definition close (s : t) : t :=
  match server s with
  | Some l =>
      let s := log_net s (net_close l) in
      let s := set_server s None in
      let s := set_app s express in
      addMiddlewares s
  | None => s
  end.

End WithConfig.

(** *** The middleware [addCustomHeaders] installs

    [process.env] is a finite map from names to strings; the response is
    the list of [res.header(key, value)] calls made on it, in order. *)






End Server.


(** ** util.ts: the route event channel [pubsub] *)

(** The payload of an [EVENTS.ADD_ROUTE] event.  Its handler comes from the
    publisher, which is outside the two classes. *)
Record AddRouteEvent := {
  e_path : string;
  e_method : HTTP_METHODS;
  e_handler : nat;
}.

#[global] Instance AddRouteEvent_eq_dec : EqDecision AddRouteEvent.
Proof. solve_decision. Defined.

Module Process.

(** Modelled from the spec: [util.ts] with the [pubsub] object is missing.
    It is a process-wide publish/subscribe channel whose subscriptions are
    invoked synchronously, in subscription order, with no queueing.  The
    only listeners on [EVENTS.ADD_ROUTE] here are the closures made by the
    [Server] constructor; each one is represented by the [Server] object it
    captured.  [servers] is the store of [Server] objects. *)
Record t := {
  servers : list Server.t;
  ADD_ROUTE_listeners : list nat;
}.

Definition empty : t := {| servers := []; ADD_ROUTE_listeners := [] |}.

(** A method call on the [Server] object behind a reference. *)
Definition on_server (p : t) (ref : nat) (f : Server.t -> Server.t) : t :=
  {| servers := alter f ref (servers p);
     ADD_ROUTE_listeners := ADD_ROUTE_listeners p |}.

(** [pubsub.on(EVENTS.ADD_ROUTE, listener)] *)
Definition pubsub_on (p : t) (ref : nat) : t :=
  {| servers := servers p;
     ADD_ROUTE_listeners := ADD_ROUTE_listeners p ++ [ref] |}.

(** [new Server()]: the constructor of [server.ts], subscription included. *)
Definition new_Server (cfg : Config) (p : t) : nat * t :=
  let ref := length (servers p) in
  let p := {| servers := servers p ++ [Server.construct cfg];
              ADD_ROUTE_listeners := ADD_ROUTE_listeners p |} in
  (ref, pubsub_on p ref).

(** The listener of the constructor:
    [e => this.addRoute(e.path, e.method, e.handler)] *)
Definition ADD_ROUTE_listener (e : AddRouteEvent) (s : Server.t) : Server.t :=
  Server.addRoute s (path_one (e_path e)) (e_method e) (external (e_handler e)) [].

(** [pubsub.emit(EVENTS.ADD_ROUTE, e)] *)
Definition emit_ADD_ROUTE (e : AddRouteEvent) (p : t) : t :=
  foldl (fun p ref => on_server p ref (ADD_ROUTE_listener e)) p (ADD_ROUTE_listeners p).

(** What a program can do with the servers of the process. *)
Inductive Op :=
  | op_new
  | op_useProtocolOptions (ref : nat) (options : option ISpdyConfiguration)
  | op_addUse (ref : nat) (path : option string) (handler : Handler)
  | op_setStatic (ref : nat) (path : option string) (source : string)
      (staticOptions : option nat)
  | op_addRoute (ref : nat) (path : RoutePath) (method : HTTP_METHODS)
      (handler : Handler) (middlewares : list Handler)
  | op_listen (ref : nat) (port : Z) (cb : option Callback) (ipv4 : bool)
  | op_addCustomHeaders (ref : nat) (customHeaders : option (list ICustomHeader))
  | op_close (ref : nat)
  | op_emit (e : AddRouteEvent).

Definition run_op (cfg : Config) (p : t) (o : Op) : t :=
  match o with
  | op_new => (new_Server cfg p).2
  | op_useProtocolOptions ref options =>
      on_server p ref (fun s => Server.useProtocolOptions s options)
  | op_addUse ref path handler =>
      on_server p ref (fun s => Server.addUse s path handler)
  | op_setStatic ref path source staticOptions =>
      on_server p ref (fun s => Server.setStatic s path source staticOptions)
  | op_addRoute ref path method handler middlewares =>
      on_server p ref (fun s => Server.addRoute s path method handler middlewares)
  | op_listen ref port cb ipv4 =>
      on_server p ref (fun s => Server.listen cfg s port cb ipv4)
  | op_addCustomHeaders ref customHeaders =>
      on_server p ref (fun s => Server.addCustomHeaders s customHeaders)
  | op_close ref => on_server p ref (Server.close cfg)
  | op_emit e => emit_ADD_ROUTE e p
  end.

Definition run (cfg : Config) (ops : list Op) (p : t) : t :=
  foldl (run_op cfg) p ops.

End Process.


(** ** storefront.ts *)

(** The parts of [IStorefrontConfig] the class reads. *)
Record IGatewayConfiguration := {
  gateway_name : string;
  gateway_url : string;
}.

Record IPageConfiguration := {
  page_name : string;
  page_html : string;
  page_url : RoutePath;
  page_condition : option nat;
}.

Record IFileResourceDependency := {
  dependency_name : string;
  dependency_link : string;
}.

Record IStorefrontConfig := {
  sc_port : Z;
  sc_ipv4 : bool;
  sc_spdy : option ISpdyConfiguration;
  sc_gateways : list IGatewayConfiguration;
  sc_pages : list IPageConfiguration;
  sc_dependencies : list IFileResourceDependency;
  sc_customHeaders : option (list ICustomHeader);
}.

(** The listeners [Storefront] puts on a gateway's event emitter. *)
Inductive ReadyListener :=
  | incrementGatewaysReady.

(** A [GatewayStorefrontInstance], as far as [Storefront] touches it: its
    name, whether [startUpdating] was called, and the listeners registered
    with [events.once(EVENTS.GATEWAY_READY, _)] that are still installed. *)
Record GatewayObject := {
  g_name : string;
  g_updating : bool;
  g_once_GATEWAY_READY : list ReadyListener;
}.

Record Page := {
  p_html : string;
  p_name : string;
}.

(** An error object handed to a continuation; as an object it is truthy. *)
Inductive Error :=
  | mkError (message : string).

#[global] Instance Error_eq_dec : EqDecision Error.
Proof. solve_decision. Defined.

(** How a call ends. *)
Inductive Completion :=
  | returns
  | throws (err : Error).

(** What a pipeline stage does with its continuation [cb]. *)
Inductive StageResult :=
  | cb_ok
  | cb_error (err : Error)
  | cb_pending.

(** What happens around the storefront while it waits: a gateway emits
    [EVENTS.GATEWAY_READY], the timer of [wait] fires, somebody publishes
    on the route event channel. *)
Inductive EnvEvent :=
  | gateway_emits_ready (g : nat)
  | timer_fires
  | publishes (e : AddRouteEvent).

(** The observable history of a run. *)
Inductive Event :=
  | ev_stage_begin (k : nat)
  | ev_stage_done (k : nat)
  | ev_stage_error (k : nat) (err : Error)
  | ev_registerDependency (d : IFileResourceDependency)
  | ev_wait
  | ev_addUse (l : Layer)
  | ev_addRoute (l : Layer)
  | ev_listen (port : Z) (ipv4 : bool).

#[global] Instance IFileResourceDependency_eq_dec : EqDecision IFileResourceDependency.
Proof. solve_decision. Defined.

#[global] Instance StageResult_eq_dec : EqDecision StageResult.
Proof. solve_decision. Defined.

#[global] Instance EnvEvent_eq_dec : EqDecision EnvEvent.
Proof. solve_decision. Defined.

#[global] Instance Event_eq_dec : EqDecision Event.
Proof. solve_decision. Defined.

Module Storefront.

Record t := {
  server : nat;
  config : IStorefrontConfig;
  pages : gmap string Page;
  gateways : gmap string nat;
  gatewaysReady : nat;
  (** the guard of [@callableOnce] on [init] *)
  init_called : bool;
}.

(** The storefront object together with what it reaches by reference: the
    process with its servers and route event channel, the gateway objects,
    the registry behind [ResourceFactory.instance], and the history. *)
Record World := {
  process : Process.t;
  this : t;
  gatewayObjects : list GatewayObject;
  registry : list IFileResourceDependency;
  trace : list Event;
}.

Definition set_process (w : World) (p : Process.t) : World :=
  {| process := p; this := this w; gatewayObjects := gatewayObjects w;
     registry := registry w; trace := trace w |}.

Definition set_this (w : World) (s : t) : World :=
  {| process := process w; this := s; gatewayObjects := gatewayObjects w;
     registry := registry w; trace := trace w |}.

Definition set_gatewayObjects (w : World) (gs : list GatewayObject) : World :=
  {| process := process w; this := this w; gatewayObjects := gs;
     registry := registry w; trace := trace w |}.

Definition set_registry (w : World) (r : list IFileResourceDependency) : World :=
  {| process := process w; this := this w; gatewayObjects := gatewayObjects w;
     registry := r; trace := trace w |}.

Definition log (w : World) (e : Event) : World :=
  {| process := process w; this := this w; gatewayObjects := gatewayObjects w;
     registry := registry w; trace := trace w ++ [e] |}.

Definition set_pages (s : t) (ps : gmap string Page) : t :=
  {| server := server s; config := config s; pages := ps;
     gateways := gateways s; gatewaysReady := gatewaysReady s;
     init_called := init_called s |}.

Definition set_gateways (s : t) (gs : gmap string nat) : t :=
  {| server := server s; config := config s; pages := pages s;
     gateways := gs; gatewaysReady := gatewaysReady s;
     init_called := init_called s |}.

Definition set_gatewaysReady (s : t) (n : nat) : t :=
  {| server := server s; config := config s; pages := pages s;
     gateways := gateways s; gatewaysReady := n;
     init_called := init_called s |}.

Definition set_init_called (s : t) (b : bool) : t :=
  {| server := server s; config := config s; pages := pages s;
     gateways := gateways s; gatewaysReady := gatewaysReady s;
     init_called := b |}.

(** A method call on [this.server]. *)
Definition on_this_server (w : World) (f : Server.t -> Server.t) : World :=
  set_process w (Process.on_server (process w) (server (this w)) f).

(** The [Server] object behind [this.server]. *)
Definition this_server (w : World) : option Server.t :=
  Process.servers (process w) !! server (this w).

(** [this.server.addRoute(path, method, handler)] *)
Definition server_addRoute (w : World) (path : RoutePath) (method : HTTP_METHODS)
    (handler : Handler) : World :=
  log (on_this_server w (fun s => Server.addRoute s path method handler []))
      (ev_addRoute (Route path method [] handler)).

(** *** Events from outside *)

Definition run_ReadyListener (w : World) (l : ReadyListener) : World :=
  match l with
  | incrementGatewaysReady =>
      set_this w (set_gatewaysReady (this w) (S (gatewaysReady (this w))))
  end.

(** [gateway.events.emit(EVENTS.GATEWAY_READY)] on gateway object [g]: the
    listeners registered with [once] are removed and run. *)
Definition emit_GATEWAY_READY (g : nat) (w : World) : World :=
  match gatewayObjects w !! g with
  | Some o =>
      let o' := {| g_name := g_name o; g_updating := g_updating o;
                   g_once_GATEWAY_READY := [] |} in
      foldl run_ReadyListener
        (set_gatewayObjects w (<[g := o']> (gatewayObjects w)))
        (g_once_GATEWAY_READY o)
  | None => w
  end.

(** [pubsub.emit(EVENTS.ADD_ROUTE, e)]: every subscribed server adds the
    route. *)
Definition publish (e : AddRouteEvent) (w : World) : World :=
  foldl (fun w _ =>
           log w (ev_addRoute
                    (Route (path_one (e_path e)) (e_method e) [] (external (e_handler e)))))
        (set_process w (Process.emit_ADD_ROUTE e (process w)))
        (Process.ADD_ROUTE_listeners (process w)).

Definition deliver (w : World) (ev : EnvEvent) : World :=
  match ev with
  | gateway_emits_ready g => emit_GATEWAY_READY g w
  | timer_fires => w
  | publishes e => publish e w
  end.

Definition deliver_all (evs : list EnvEvent) (w : World) : World :=
  foldl deliver w evs.

(** *** Construction *)

(** The body of [config.gateways.forEach] in
    [createStorefrontPagesAndGateways]. *)
Definition createGateway (w : World) (gatewayConfiguration : IGatewayConfiguration)
    : World :=
  let gateway := length (gatewayObjects w) in
  let o := {| g_name := gateway_name gatewayConfiguration;
              g_updating := false;
              g_once_GATEWAY_READY := [] |} in
  let o := {| g_name := g_name o; g_updating := g_updating o;
              g_once_GATEWAY_READY := g_once_GATEWAY_READY o ++ [incrementGatewaysReady] |} in
  let o := {| g_name := g_name o; g_updating := true;
              g_once_GATEWAY_READY := g_once_GATEWAY_READY o |} in
  let w := set_gatewayObjects w (gatewayObjects w ++ [o]) in
  set_this w (set_gateways (this w)
                (<[gateway_name gatewayConfiguration := gateway]> (gateways (this w)))).

(** The body of [config.pages.forEach]. *)
Definition createPage (w : World) (pageConfiguration : IPageConfiguration) : World :=
  set_this w (set_pages (this w)
                (<[page_name pageConfiguration :=
                     {| p_html := page_html pageConfiguration;
                        p_name := page_name pageConfiguration |}]> (pages (this w)))).

(** [private createStorefrontPagesAndGateways()] *)
Definition createStorefrontPagesAndGateways (w : World) : World :=
  let w := foldl createGateway w (sc_gateways (config (this w))) in
  foldl createPage w (sc_pages (config (this w))).

(** [private bootstrap()]; the check of the temporary folder touches only
    the file system and is left out. *)
Definition bootstrap (w : World) : World :=
  let w := on_this_server w
             (fun s => Server.useProtocolOptions s (sc_spdy (config (this w)))) in
  createStorefrontPagesAndGateways w.

(** [constructor(storefrontConfig, _server)], in a process [p]; the server
    is the one passed in or the one the container hands out, in both cases
    a reference to a [Server] object. *)
Definition construct (storefrontConfig : IStorefrontConfig) (_server : nat)
    (p : Process.t) : World :=
  bootstrap
    {| process := p;
       this := {| server := _server; config := storefrontConfig;
                  pages := ∅; gateways := ∅; gatewaysReady := 0;
                  init_called := false |};
       gatewayObjects := [];
       registry := [];
       trace := [] |}.

(** *** The bootstrap pipeline *)

(** A run of a stage, or of the whole series: what became of the
    continuation, the world after it, and the events from outside that are
    still to come. *)
Record Ran := {
  result : StageResult;
  world : World;
  rest : list EnvEvent;
}.

Definition Task := list EnvEvent -> World -> Ran.

(** [private registerDependencies(cb)] *)
Definition registerDependencies : Task := fun sched w =>
  let w := foldl (fun w dependency =>
                    log (set_registry w (registry w ++ [dependency]))
                        (ev_registerDependency dependency))
                 w (sc_dependencies (config (this w))) in
  {| result := cb_ok; world := w; rest := sched |}.

(** [Object.keys(this.gateways).length != this.gatewaysReady] *)
Definition gateways_pending (w : World) : bool :=
  negb (size (gateways (this w)) =? gatewaysReady (this w))%nat.

(** The loop of [waitForGateways], suspended in
    [await wait(GATEWAY_PREPERATION_CHECK_INTERVAL)]: events from outside
    are served until the timer fires, then the condition is tested again. *)
Fixpoint waiting (sched : list EnvEvent) (w : World) : Ran :=
  match sched with
  | [] => {| result := cb_pending; world := w; rest := [] |}
  | timer_fires :: sched =>
      if gateways_pending w
      then waiting sched (log w ev_wait)
      else {| result := cb_ok; world := w; rest := sched |}
  | ev :: sched => waiting sched (deliver w ev)
  end.

(** [private async waitForGateways(cb)] *)
Definition waitForGateways : Task := fun sched w =>
  if gateways_pending w
  then waiting sched (log w ev_wait)
  else {| result := cb_ok; world := w; rest := sched |}.

Section WithConfig.
Context (cfg : Config).

(** [private async registerDebugScripts(cb)] *)
Definition registerDebugScripts : Task := fun sched w =>
  let w := server_addRoute w (path_one (PUZZLE_DEBUGGER_LINK cfg)) GET debugScriptHandler in
  {| result := cb_ok; world := w; rest := sched |}.

(** [private addHealthCheckRoute(cb)] *)
Definition addHealthCheckRoute : Task := fun sched w =>
  let w := server_addRoute w (path_many (HEALTHCHECK_PATHS cfg)) GET healthCheckHandler in
  {| result := cb_ok; world := w; rest := sched |}.

End WithConfig.

(** [private addCustomHeaders(cb)] *)
Definition addCustomHeaders : Task := fun sched w =>
  let customHeaders := sc_customHeaders (config (this w)) in
  let w := on_this_server w (fun s => Server.addCustomHeaders s customHeaders) in
  let w := match customHeaders with
           | Some hs => log w (ev_addUse (Use None (customHeadersMiddleware hs)))
           | None => w
           end in
  {| result := cb_ok; world := w; rest := sched |}.

(** [Object.values(m)] for a [Map]: the entries of a [Map] are not
    properties of the object, so there are no values to list. *)
Definition Object_values_of_Map (m : gmap string Page) : list Page := [].

(** [private preLoadPages(cb)]; [reCompile] tells whether the promise of
    [page.reCompile()] is fulfilled.  [cb] is called when [Promise.all] is
    fulfilled and not at all when it is rejected. *)
Definition preLoadPages (reCompile : Page -> bool) : Task := fun sched w =>
  if forallb reCompile (Object_values_of_Map (pages (this w)))
  then {| result := cb_ok; world := w; rest := sched |}
  else {| result := cb_pending; world := w; rest := sched |}.

(** [private addPageRoute(cb)] *)
Definition addPageRoute : Task := fun sched w =>
  let w := foldl (fun w pageConfiguration =>
                    match pages (this w) !! page_name pageConfiguration with
                    | Some page =>
                        let w := server_addRoute w (page_url pageConfiguration) GET
                                   (pageGetHandler (p_name page)
                                      (page_condition pageConfiguration)) in
                        server_addRoute w (page_url pageConfiguration) POST
                          (pagePostHandler (p_name page))
                    | None => w
                    end)
                 w (sc_pages (config (this w))) in
  {| result := cb_ok; world := w; rest := sched |}.

(** [series(tasks, callback)] of the async library, for tasks that take a
    continuation, as all seven do: the tasks run one after the other, each
    one once the one before it has called its continuation; the first
    error ends the series.  The result tells how
    the final callback is called: [cb_ok] without an error, [cb_error err]
    with one, [cb_pending] not at all.  [k] numbers the stages in the
    history. *)
Fixpoint series (k : nat) (tasks : list Task) (sched : list EnvEvent) (w : World)
    : Ran :=
  match tasks with
  | [] => {| result := cb_ok; world := w; rest := sched |}
  | task :: tasks =>
      let r := task sched (log w (ev_stage_begin k)) in
      match result r with
      | cb_ok => series (S k) tasks (rest r) (log (world r) (ev_stage_done k))
      | cb_error err =>
          {| result := cb_error err;
             world := log (world r) (ev_stage_error k err);
             rest := rest r |}
      | cb_pending => r
      end
  end.

(** [this.server.listen(this.config.port, () => {...}, this.config.ipv4)] *)
Definition server_listen (cfg : Config) (w : World) (cb : option nat) : World :=
  let port := sc_port (config (this w)) in
  let ipv4 := sc_ipv4 (config (this w)) in
  log (on_this_server w
         (fun s => Server.listen cfg s port (Some (storefront_listening cb)) ipv4))
      (ev_listen port ipv4).

(** The body of [init] over a list of stages. *)
Definition init_series (cfg : Config) (stages : list Task) (cb : option nat)
    (sched : list EnvEvent) (w : World) : World * Completion :=
  let r := series 0 stages sched w in
  match result r with
  | cb_ok => (server_listen cfg (world r) cb, returns)
  | cb_error err => (world r, throws err)
  | cb_pending => (world r, returns)
  end.

(** The seven stages of [init], in the order of the source. *)
Definition stages (cfg : Config) (reCompile : Page -> bool) : list Task :=
  [ registerDependencies;
    waitForGateways;
    registerDebugScripts cfg;
    addCustomHeaders;
    addHealthCheckRoute cfg;
    preLoadPages reCompile;
    addPageRoute ].

(** Modelled from the spec: [decorators.ts] with [callableOnce] is
    missing.  The decorated operation runs once per storefront instance;
    calling it again is a guarded no-op. *)
Definition callableOnce (method : World -> World * Completion) (w : World)
    : World * Completion :=
  if init_called (this w)
  then (w, returns)
  else method (set_this w (set_init_called (this w) true)).

(** [@callableOnce init(cb?)], with the events from outside that arrive
    while it runs. *)
Definition init (cfg : Config) (reCompile : Page -> bool) (cb : option nat)
    (sched : list EnvEvent) : World -> World * Completion :=
  callableOnce (init_series cfg (stages cfg reCompile) cb sched).

End Storefront.

(** * Vocabulary of the properties *)




(** The transport of the active listener. *)
Definition selected (s : Server.t) : option Transport :=
  transport <$> Server.server s.

(** The default middleware stack, in the order of the spec: request
    timing, optional access logging, optional security headers, body
    parsing (URL-encoded and JSON), cookie parsing, compression. *)
Definition default_stack (cfg : Config) : list Layer :=
  [Use None responseTime]
  ++ (if USE_MORGAN cfg
      then [Use None (morgan (Server.join "||" Server.morganLoggingLevels))]
      else [])
  ++ (if USE_HELMET cfg then [Use None helmet] else [])
  ++ [Use None bodyParser_urlencoded; Use None bodyParser_json; Use None cookieParser]
  ++ [Use None (if BROTLI cfg then shrinkRay else compression)].

(** The layers of a stack that are routes. *)
Definition routes (a : Express) : list Layer := filter (fun l => is_route l = true) (stack a).

(** A configuration to try things on. *)
Definition sample_config : Config :=
  {| USE_MORGAN := true; USE_HELMET := false; BROTLI := true;
     GLOBAL_REQUEST_TIMEOUT := 20000;
     HEALTHCHECK_PATHS := ["/healthcheck"; "/liveness"];
     PUZZLE_DEBUGGER_LINK := "/static/puzzle_debug.min.js" |}.




(** How many of the first [N] gateway objects have emitted their ready
    event among [evs]; an object that emitted it twice counts once. *)
Definition fired_count (N : nat) (evs : list EnvEvent) : nat :=
  length (filter (fun g => gateway_emits_ready g ∈ evs) (seq 0 N)).


(** A storefront configuration to try things on: two gateways, one page. *)
Definition sample_storefront_config : IStorefrontConfig :=
  {| sc_port := 4444;
     sc_ipv4 := false;
     sc_spdy := None;
     sc_gateways := [ {| gateway_name := "Browsing"; gateway_url := "http://browsing" |};
                      {| gateway_name := "Search"; gateway_url := "http://search" |} ];
     sc_pages := [ {| page_name := "home"; page_html := "<template/>";
                      page_url := path_one "/home"; page_condition := None |} ];
     sc_dependencies := [ {| dependency_name := "lib"; dependency_link := "/lib.js" |} ];
     sc_customHeaders := None |}.

(** Two gateways configured under one name. *)
Definition same_name_config : IStorefrontConfig :=
  {| sc_port := 4444;
     sc_ipv4 := false;
     sc_spdy := None;
     sc_gateways := [ {| gateway_name := "Browsing"; gateway_url := "http://a" |};
                      {| gateway_name := "Browsing"; gateway_url := "http://b" |} ];
     sc_pages := [];
     sc_dependencies := [];
     sc_customHeaders := None |}.

(** The sample storefront, on a fresh server in a fresh process. *)
Definition sample_world : Storefront.World :=
  Storefront.construct sample_storefront_config 0
    (Process.new_Server sample_config Process.empty).2.

(** An event a stage may cause: anything but the marks of the series and
    the call of [listen], which belong to [init] itself. *)
Definition stage_effect (e : Event) : bool :=
  match e with
  | ev_stage_begin _ | ev_stage_done _ | ev_stage_error _ _ | ev_listen _ _ => false
  | _ => true
  end.

(** A task that adds to the history only events that satisfy [P]. *)
Definition behaves (P : Event → Prop) (task : Storefront.Task) : Prop :=
  ∀ sched w, ∃ evs,
    Storefront.trace (Storefront.world (task sched w)) = Storefront.trace w ++ evs
    ∧ Forall P evs.

(** Every occurrence of [b] in a history comes after an occurrence of
    [a]. *)
Definition precedes (a b : Event) (tr : list Event) : Prop :=
  ∀ i, tr !! i = Some b → ∃ i', i' < i ∧ tr !! i' = Some a.

(** The shape of the history of a series of [n] stages numbered from [k],
    where stage [j] causes events allowed by [allowed j]: each stage
    begins, causes its events and then either calls its continuation,
    after which the next stage begins, or signals an error, which ends
    the history, or leaves its continuation uncalled, which ends it too. *)
Inductive pipeline_trace (allowed : nat → Event → bool)
    : nat → nat → list Event → StageResult → Prop :=
  | pt_nil k : pipeline_trace allowed k 0 [] cb_ok
  | pt_ok k n evs tr r :
      Forall (fun e => allowed k e = true) evs →
      pipeline_trace allowed (S k) n tr r →
      pipeline_trace allowed k (S n)
        (ev_stage_begin k :: evs ++ ev_stage_done k :: tr) r
  | pt_error k n evs err :
      Forall (fun e => allowed k e = true) evs →
      pipeline_trace allowed k (S n)
        (ev_stage_begin k :: evs ++ [ev_stage_error k err]) (cb_error err)
  | pt_pending k n evs :
      Forall (fun e => allowed k e = true) evs →
      pipeline_trace allowed k (S n) (ev_stage_begin k :: evs) cb_pending.

(** The routes the pipeline registers: debug script, health check, pages. *)
Definition pipeline_route (e : Event) : bool :=
  match e with
  | ev_addRoute (Route _ _ _ debugScriptHandler)
  | ev_addRoute (Route _ _ _ healthCheckHandler)
  | ev_addRoute (Route _ _ _ (pageGetHandler _ _))
  | ev_addRoute (Route _ _ _ (pagePostHandler _)) => true
  | _ => false
  end.

(** What the stages of [init] may cause: the first one registers
    dependencies; the second one waits, and meanwhile routes published on
    the event channel are added; the later ones add routes and
    middlewares. *)
Definition init_allowed (k : nat) (e : Event) : bool :=
  match k with
  | 0 => match e with ev_registerDependency _ => true | _ => false end
  | 1 => match e with
         | ev_wait => true
         | ev_addRoute (Route _ _ _ (external _)) => true
         | _ => false
         end
  | _ => match e with ev_addRoute _ | ev_addUse _ => true | _ => false end
  end.

(** What a run added to the history of [w]. *)
Definition history (w w' : Storefront.World) : list Event :=
  drop (length (Storefront.trace w)) (Storefront.trace w').


(** What [useProtocolOptions] stores for the options [o]. *)
Definition stored_options (o : ISpdyConfiguration) : INodeSpdyConfiguration :=
  {| cert := opt_cert o;
     key := opt_key o;
     passphrase := opt_passphrase o;
     spdy := {| x_forwarded_for := true;
                protocols := opt_protocols o;
                connection := {| windowSize := 1048576; autoSpdy31 := false |} |} |}.

(** The operations of a process that are calls of [close]. *)
Definition is_close (o : Process.Op) : bool :=
  match o with
  | Process.op_close _ => true
  | _ => false
  end.

(** The ready listeners still installed on the gateway objects. *)
Definition armed (w : Storefront.World) : nat :=
  sum_list (length ∘ g_once_GATEWAY_READY <$> Storefront.gatewayObjects w).

(** The application of [s'] carries the layers of [s], in the same order,
    and maybe more after them. *)
Definition grows (s s' : Server.t) : Prop :=
  stack (Server.app s) `prefix_of` stack (Server.app s').

(** The fields of a storefront that only its constructor writes. *)
Definition static (t : Storefront.t)
    : nat * IStorefrontConfig * gmap string Page * gmap string nat :=
  (Storefront.server t, Storefront.config t, Storefront.pages t,
   Storefront.gateways t).






(** * Properties of [Server] *)




(** What [listen] leaves behind, branch by branch. *)
Lemma listen_unfold (cfg : Config) (s : Server.t) port cb ipv4 :
  ∃ tr,
    Server.listen cfg s port cb ipv4
    = Server.set_server
        (Server.start s tr (Server.listen_arguments port cb ipv4))
        (Some {| transport := tr;
                 listen_args := Server.listen_arguments port cb ipv4;
                 timeout := Some (GLOBAL_REQUEST_TIMEOUT cfg) |})
    ∧ tr = match Server.spdyConfiguration s with
           | Some c =>
               if includes (protocols (spdy c)) H2 || includes (protocols (spdy c)) SPDY
               then spdy_createServer c
               else if truthy_km (cert c) && truthy_km (key c)
                    then https_createServer (cert c) (key c)
                    else app_listen
           | None => app_listen
           end.
Proof.
  unfold Server.listen.
  destruct (Server.spdyConfiguration s) as [c|]; [|eauto].
  destruct (includes _ H2 || includes _ SPDY); [eauto|].
  destruct (truthy_km (cert c) && truthy_km (key c)); eauto.
Qed.


Lemma listen_app (cfg : Config) (s : Server.t) port cb ipv4 :
  Server.app (Server.listen cfg s port cb ipv4) = Server.app s.
Proof. destruct (listen_unfold cfg s port cb ipv4) as (tr & -> & _). done. Qed.














Lemma addMiddlewares_stack (cfg : Config) (s : Server.t) :
  stack (Server.app (Server.addMiddlewares cfg s))
  = stack (Server.app s) ++ default_stack cfg.
Proof.
  unfold Server.addMiddlewares, default_stack.
  destruct (USE_MORGAN cfg), (USE_HELMET cfg); simpl;
    repeat rewrite <- app_assoc; done.
Qed.


Lemma construct_stack (cfg : Config) :
  stack (Server.app (Server.construct cfg)) = default_stack cfg.
Proof. unfold Server.construct. by rewrite addMiddlewares_stack. Qed.

Lemma close_active (cfg : Config) (s : Server.t) (l : Listener) :
  Server.server s = Some l →
  Server.server (Server.close cfg s) = None
  ∧ Server.net (Server.close cfg s) = Server.net s ++ [net_close l]
  ∧ Server.spdyConfiguration (Server.close cfg s) = Server.spdyConfiguration s
  ∧ stack (Server.app (Server.close cfg s)) = default_stack cfg.
Proof.
  intros Hl. unfold Server.close. rewrite Hl.
  rewrite addMiddlewares_stack. done.
Qed.



(** C10. [close] on a server without an active listener changes nothing:
    application, routes and middlewares stay as they are, the listener
    stays [null], and nothing is done to the network. *)
Theorem close_without_listener (cfg : Config) (s : Server.t) :
  Server.server s = None → Server.close cfg s = s.
Proof. intros H. unfold Server.close. by rewrite H. Qed.

Lemma close_without_listener_witness :
  let s := Server.addRoute (Server.construct sample_config)
             (path_one "/home") GET (pageGetHandler "home" None) [] in
  Server.close sample_config s = s
  ∧ Server.close sample_config
      (Server.close sample_config (Server.listen sample_config s 8080 None false))
    = Server.close sample_config (Server.listen sample_config s 8080 None false).
Proof.
  intros s. split.
  - apply (close_without_listener sample_config s). reflexivity.
  - apply (close_without_listener sample_config). reflexivity.
Defined.

(** * Properties of the route event channel *)

Lemma foldl_on_server (f : Server.t → Server.t) (refs : list nat) (p : Process.t) :
  Process.ADD_ROUTE_listeners (foldl (fun p ref => Process.on_server p ref f) p refs)
  = Process.ADD_ROUTE_listeners p
  ∧ Process.servers (foldl (fun p ref => Process.on_server p ref f) p refs)
    = foldl (fun l ref => alter f ref l) (Process.servers p) refs.
Proof.
  revert p. induction refs as [|ref refs IH]; intros p; simpl; [done|].
  destruct (IH (Process.on_server p ref f)) as [-> ->]. done.
Qed.

(** Altering every index once is mapping. *)
Lemma foldl_alter_seq {A} (f : A → A) (l1 l2 : list A) :
  foldl (fun l ref => alter f ref l) (l1 ++ l2) (seq (length l1) (length l2))
  = l1 ++ (f <$> l2).
Proof.
  revert l1. induction l2 as [|x l2 IH]; intros l1; simpl; [done|].
  rewrite alter_app_r_alt, Nat.sub_diag by lia.
  replace (l1 ++ alter f 0 (x :: l2)) with ((l1 ++ [f x]) ++ l2)
    by (by rewrite <- app_assoc).
  replace (S (length l1)) with (length (l1 ++ [f x]))
    by (rewrite length_app; simpl; lia).
  rewrite IH. by rewrite <- app_assoc.
Qed.

Lemma emit_listeners (e : AddRouteEvent) (p : Process.t) :
  Process.ADD_ROUTE_listeners (Process.emit_ADD_ROUTE e p)
  = Process.ADD_ROUTE_listeners p.
Proof. unfold Process.emit_ADD_ROUTE. apply foldl_on_server. Qed.

Lemma emit_servers (e : AddRouteEvent) (p : Process.t) :
  Process.ADD_ROUTE_listeners p = seq 0 (length (Process.servers p)) →
  Process.servers (Process.emit_ADD_ROUTE e p)
  = Process.ADD_ROUTE_listener e <$> Process.servers p.
Proof.
  intros H. unfold Process.emit_ADD_ROUTE.
  destruct (foldl_on_server (Process.ADD_ROUTE_listener e)
              (Process.ADD_ROUTE_listeners p) p) as [_ ->].
  rewrite H. apply (foldl_alter_seq _ [] (Process.servers p)).
Qed.

(** Every server of the process is subscribed, once: no operation removes
    a subscription or a server. *)
Lemma run_op_subscribed (cfg : Config) (p : Process.t) (o : Process.Op) :
  Process.ADD_ROUTE_listeners p = seq 0 (length (Process.servers p)) →
  Process.ADD_ROUTE_listeners (Process.run_op cfg p o)
  = seq 0 (length (Process.servers (Process.run_op cfg p o))).
Proof.
  intros H. destruct o; simpl; rewrite ?length_alter; try done.
  - rewrite length_app, H. simpl. by rewrite Nat.add_1_r, seq_S.
  - rewrite emit_listeners, emit_servers, length_fmap; done.
Qed.

Lemma run_subscribed (cfg : Config) (ops : list Process.Op) (p : Process.t) :
  Process.ADD_ROUTE_listeners p = seq 0 (length (Process.servers p)) →
  Process.ADD_ROUTE_listeners (Process.run cfg ops p)
  = seq 0 (length (Process.servers (Process.run cfg ops p))).
Proof.
  revert p. induction ops as [|o ops IH]; intros p H; [done|].
  apply IH, run_op_subscribed, H.
Qed.

Lemma emit_forwards (cfg : Config) (ops : list Process.Op) (e : AddRouteEvent)
    (ref : nat) (s : Server.t) :
  Process.servers (Process.run cfg ops Process.empty) !! ref = Some s →
  Process.servers (Process.emit_ADD_ROUTE e (Process.run cfg ops Process.empty)) !! ref
  = Some (Server.addRoute s (path_one (e_path e)) (e_method e)
            (external (e_handler e)) []).
Proof.
  intros Hs. rewrite emit_servers by (by apply run_subscribed).
  rewrite list_lookup_fmap, Hs. done.
Qed.

(** C9. In a process built by constructing servers and calling their
    methods, every server is subscribed to the route event channel from
    its construction on.  An event published on the channel is forwarded
    at once to [addRoute] of every server, on the application the server
    holds at that moment.  [close] leaves the subscriptions as they are:
    an event published after a [close] that tore a listener down adds its
    route to the rebuilt application, right after the default
    middlewares. *)
Theorem ADD_ROUTE_forwarded_across_close (cfg : Config) (ops : list Process.Op)
    (e : AddRouteEvent) (ref : nat) (s : Server.t) :
  Process.servers (Process.run cfg ops Process.empty) !! ref = Some s →
  ref ∈ Process.ADD_ROUTE_listeners (Process.run cfg ops Process.empty)
  ∧ Process.servers
      (Process.emit_ADD_ROUTE e (Process.run cfg ops Process.empty)) !! ref
    = Some (Server.addRoute s (path_one (e_path e)) (e_method e)
              (external (e_handler e)) [])
  ∧ Process.ADD_ROUTE_listeners
      (Process.run_op cfg (Process.run cfg ops Process.empty) (Process.op_close ref))
    = Process.ADD_ROUTE_listeners (Process.run cfg ops Process.empty)
  ∧ (∀ l, Server.server s = Some l →
       ∃ s', Process.servers
               (Process.emit_ADD_ROUTE e
                  (Process.run_op cfg (Process.run cfg ops Process.empty)
                     (Process.op_close ref))) !! ref = Some s'
             ∧ Server.server s' = None
             ∧ stack (Server.app s')
               = default_stack cfg
                 ++ [Route (path_one (e_path e)) (e_method e) []
                       (external (e_handler e))]).
Proof.
  intros Hs. split; [|split; [|split]].
  - rewrite run_subscribed by done.
    apply elem_of_seq. apply lookup_lt_Some in Hs. lia.
  - by apply emit_forwards.
  - done.
  - intros l Hl.
    assert (Process.run_op cfg (Process.run cfg ops Process.empty) (Process.op_close ref)
            = Process.run cfg (ops ++ [Process.op_close ref]) Process.empty) as ->.
    { unfold Process.run. by rewrite foldl_app. }
    eexists. split.
    + apply emit_forwards. unfold Process.run. rewrite foldl_app. simpl.
      rewrite list_lookup_alter_eq. fold (Process.run cfg ops Process.empty).
      rewrite Hs. done.
    + destruct (close_active cfg s l Hl) as (H1 & _ & _ & H4).
      split; [done|]. simpl. by rewrite H4.
Qed.

Lemma ADD_ROUTE_forwarded_across_close_witness :
  let ops := [Process.op_new;
              Process.op_addRoute 0 (path_one "/home") GET (pageGetHandler "home" None) [];
              Process.op_listen 0 8080 None false] in
  let e := {| e_path := "/late"; e_method := POST; e_handler := 7 |} in
  ∃ s', Process.servers
          (Process.emit_ADD_ROUTE e
             (Process.run_op sample_config
                (Process.run sample_config ops Process.empty)
                (Process.op_close 0))) !! 0 = Some s'
        ∧ Server.server s' = None
        ∧ stack (Server.app s')
          = default_stack sample_config ++ [Route (path_one "/late") POST [] (external 7)].
Proof.
  intros ops e.
  destruct (ADD_ROUTE_forwarded_across_close sample_config ops e 0
              (Server.listen sample_config
                 (Server.addRoute (Server.construct sample_config)
                    (path_one "/home") GET (pageGetHandler "home" None) [])
                 8080 None false) eq_refl)
    as (_ & _ & _ & H).
  apply (H {| transport := app_listen;
              listen_args := [arg_port 8080; arg_callback None];
              timeout := Some 20000%Z |}).
  reflexivity.
Defined.

(** * Properties of the gateway readiness wait *)




Lemma fired_count_le (N : nat) (evs : list EnvEvent) : (fired_count N evs ≤ N)%nat.
Proof.
  unfold fired_count.
  pose proof (length_filter (fun g => gateway_emits_ready g ∈ evs) (seq 0 N)) as Hf.
  by rewrite length_seq in Hf.
Qed.



Lemma foldl_log_frame {A} (x : Event) (l : list A) (w : Storefront.World) :
  Storefront.this (foldl (fun w _ => Storefront.log w x) w l) = Storefront.this w
  ∧ Storefront.gatewayObjects (foldl (fun w _ => Storefront.log w x) w l)
    = Storefront.gatewayObjects w
  ∧ Storefront.registry (foldl (fun w _ => Storefront.log w x) w l)
    = Storefront.registry w
  ∧ Storefront.process (foldl (fun w _ => Storefront.log w x) w l)
    = Storefront.process w
  ∧ Storefront.trace (foldl (fun w _ => Storefront.log w x) w l)
    = Storefront.trace w ++ replicate (length l) x.
Proof.
  revert w. induction l as [|a l IH]; intros w; simpl.
  - by rewrite app_nil_r.
  - destruct (IH (Storefront.log w x)) as (-> & -> & -> & -> & ->).
    simpl. by rewrite <- app_assoc.
Qed.

Lemma publish_frame (e : AddRouteEvent) (w : Storefront.World) :
  Storefront.this (Storefront.publish e w) = Storefront.this w
  ∧ Storefront.gatewayObjects (Storefront.publish e w) = Storefront.gatewayObjects w
  ∧ Storefront.registry (Storefront.publish e w) = Storefront.registry w.
Proof.
  unfold Storefront.publish.
  destruct (foldl_log_frame
              (ev_addRoute (Route (path_one (e_path e)) (e_method e) []
                              (external (e_handler e))))
              (Process.ADD_ROUTE_listeners (Storefront.process w))
              (Storefront.set_process w
                 (Process.emit_ADD_ROUTE e (Storefront.process w))))
    as (-> & -> & -> & _). done.
Qed.







Lemma createPages_frame (pcs : list IPageConfiguration) (w : Storefront.World) :
  Storefront.gateways (Storefront.this (foldl Storefront.createPage w pcs))
  = Storefront.gateways (Storefront.this w)
  ∧ Storefront.gatewaysReady (Storefront.this (foldl Storefront.createPage w pcs))
    = Storefront.gatewaysReady (Storefront.this w)
  ∧ Storefront.gatewayObjects (foldl Storefront.createPage w pcs)
    = Storefront.gatewayObjects w.
Proof.
  revert w. induction pcs as [|pc pcs IH]; intros w; simpl; [done|].
  destruct (IH (Storefront.createPage w pc)) as (-> & -> & ->). done.
Qed.




(** A continuation of [waitForGateways] is called without an error or not
    at all. *)
Lemma waiting_no_error (sched : list EnvEvent) (w : Storefront.World) (err : Error) :
  Storefront.result (Storefront.waiting sched w) ≠ cb_error err.
Proof.
  revert w. induction sched as [|ev sched IH]; intros w; [done|].
  destruct ev; simpl; [apply IH| |apply IH].
  destruct (Storefront.gateways_pending w); [apply IH|done].
Qed.






(** * Properties of the bootstrap pipeline *)

Lemma lookup_segment (evs : list Event) (b x : Event) (tr : list Event)
    (i : nat) (e : Event) :
  (b :: evs ++ x :: tr) !! i = Some e →
  (i = 0 ∧ e = b)
  ∨ (∃ i0, i = S i0 ∧ evs !! i0 = Some e)
  ∨ (i = S (length evs) ∧ e = x)
  ∨ (∃ i1, i = S (S (length evs + i1)) ∧ tr !! i1 = Some e).
Proof.
  destruct i as [|i]; simpl.
  - intros [= <-]. by left.
  - intros H. apply lookup_app_Some in H as [H|[Hle H]].
    + right. left. eauto.
    + destruct (i - length evs) as [|i1] eqn:Hi; simpl in H.
      * injection H as <-. right. right. left. split; [|done]. f_equal. lia.
      * right. right. right. exists i1. split; [|done]. f_equal. lia.
Qed.

Lemma lookup_segment_sep (evs : list Event) (b x : Event) (tr : list Event) :
  (b :: evs ++ x :: tr) !! S (length evs) = Some x.
Proof. simpl. by rewrite list_lookup_middle. Qed.

Lemma lookup_segment_tail (evs : list Event) (b x : Event) (tr : list Event)
    (i1 : nat) :
  (b :: evs ++ x :: tr) !! S (S (length evs + i1)) = tr !! i1.
Proof.
  simpl. rewrite lookup_app_r by lia.
  replace (S (length evs + i1) - length evs) with (S i1) by lia. done.
Qed.

Lemma lookup_begin_segment (evs : list Event) (b : Event) (i : nat) (e : Event) :
  (b :: evs) !! i = Some e →
  (i = 0 ∧ e = b) ∨ (∃ i0, i = S i0 ∧ evs !! i0 = Some e).
Proof. destruct i; simpl; [intros [= <-]; by left|right; eauto]. Qed.

Section PipelineTrace.
Context (allowed : nat → Event → bool).
Context (allowed_effect : ∀ k e, allowed k e = true → stage_effect e = true).

Lemma allowed_lookup (k : nat) (evs : list Event) (i : nat) (e : Event) :
  Forall (fun e => allowed k e = true) evs → evs !! i = Some e →
  allowed k e = true ∧ stage_effect e = true.
Proof.
  intros Hall Hl. pose proof (Forall_lookup_1 _ _ _ _ Hall Hl) as Ha.
  split; [done|by apply (allowed_effect k)].
Qed.

Lemma allowed_elem_of (k : nat) (evs : list Event) (e : Event) :
  Forall (fun e => allowed k e = true) evs → e ∈ evs → stage_effect e = true.
Proof.
  intros Hall Hin. apply list_elem_of_lookup in Hin as [i Hi].
  by apply (allowed_lookup k evs i e).
Qed.

(** Every event of the history is the effect of a stage or the mark of a
    stage of the series. *)
Lemma pt_events (k n : nat) (tr : list Event) (r : StageResult) :
  pipeline_trace allowed k n tr r →
  ∀ e, e ∈ tr →
    stage_effect e = true
    ∨ ∃ j, k ≤ j < k + n
           ∧ (e = ev_stage_begin j ∨ e = ev_stage_done j
              ∨ ∃ err, e = ev_stage_error j err).
Proof.
  induction 1 as [k|k n evs tr r Hevs Hpt IH|k n evs err Hevs|k n evs Hevs];
    intros e He.
  - by apply elem_of_nil in He.
  - apply elem_of_cons in He as [->|He]; [right; exists k; split; [lia|by left]|].
    apply elem_of_app in He as [He|He]; [left; by apply (allowed_elem_of k evs)|].
    apply elem_of_cons in He as [->|He];
      [right; exists k; split; [lia|right; by left]|].
    destruct (IH e He) as [?|(j & Hj & Hm)]; [by left|].
    right. exists j. split; [lia|done].
  - apply elem_of_cons in He as [->|He]; [right; exists k; split; [lia|by left]|].
    apply elem_of_app in He as [He|He]; [left; by apply (allowed_elem_of k evs)|].
    apply list_elem_of_singleton in He as ->.
    right. exists k. split; [lia|]. right. right. eauto.
  - apply elem_of_cons in He as [->|He]; [right; exists k; split; [lia|by left]|].
    left. by apply (allowed_elem_of k evs).
Qed.


Lemma pt_done_range (k n : nat) (tr : list Event) (r : StageResult) (j : nat) :
  pipeline_trace allowed k n tr r → ev_stage_done j ∈ tr → k ≤ j < k + n.
Proof.
  intros Hpt He. destruct (pt_events k n tr r Hpt _ He) as [?|(j' & Hj & Hm)];
    [done|]. destruct Hm as [?|[[= ->]|[? ?]]]; done.
Qed.


(** The stages never call [listen]. *)
Lemma pt_no_listen (k n : nat) (tr : list Event) (r : StageResult) port ipv4 :
  pipeline_trace allowed k n tr r → ev_listen port ipv4 ∉ tr.
Proof.
  intros Hpt He. destruct (pt_events k n tr r Hpt _ He) as [?|(j' & Hj & Hm)];
    [done|]. destruct Hm as [?|[?|[? ?]]]; done.
Qed.

(** The final callback is called without an error exactly when every
    stage has called its continuation. *)
Lemma pt_ok_iff (k n : nat) (tr : list Event) (r : StageResult) :
  pipeline_trace allowed k n tr r →
  r = cb_ok ↔ ∀ j, k ≤ j < k + n → ev_stage_done j ∈ tr.
Proof.
  induction 1 as [k|k n evs tr r Hevs Hpt IH|k n evs err Hevs|k n evs Hevs].
  - split; [intros _ j Hj; lia|done].
  - rewrite IH. split.
    + intros Hall j Hj. destruct (decide (j = k)) as [->|Hne].
      * right. apply elem_of_app. right. by left.
      * right. apply elem_of_app. right. right. apply Hall. lia.
    + intros Hall j Hj.
      assert (ev_stage_done j ∈ ev_stage_begin k :: evs ++ ev_stage_done k :: tr)
        as He by (apply Hall; lia).
      apply elem_of_cons in He as [?|He]; [done|].
      apply elem_of_app in He as [He|He];
        [by pose proof (allowed_elem_of k evs _ Hevs He)|].
      apply elem_of_cons in He as [[= ->]|He]; [lia|done].
  - split; [done|]. intros Hall.
    assert (ev_stage_done k ∈ ev_stage_begin k :: evs ++ [ev_stage_error k err])
      as He by (apply Hall; lia).
    apply elem_of_cons in He as [?|He]; [done|].
    apply elem_of_app in He as [He|He];
      [by pose proof (allowed_elem_of k evs _ Hevs He)|].
    by apply list_elem_of_singleton in He.
  - split; [done|]. intros Hall.
    assert (ev_stage_done k ∈ ev_stage_begin k :: evs) as He by (apply Hall; lia).
    apply elem_of_cons in He as [?|He]; [done|].
    by pose proof (allowed_elem_of k evs _ Hevs He).
Qed.


End PipelineTrace.

Section PipelineOrder.
Context (allowed : nat → Event → bool).
Context (allowed_effect : ∀ k e, allowed k e = true → stage_effect e = true).

(** A stage begins only after the stage before it has called its
    continuation. *)
Lemma pt_begin_after_done (k n : nat) (tr : list Event) (r : StageResult) :
  pipeline_trace allowed k n tr r →
  ∀ j, k ≤ j → precedes (ev_stage_done j) (ev_stage_begin (S j)) tr.
Proof.
  induction 1 as [k|k n evs tr r Hevs Hpt IH|k n evs err Hevs|k n evs Hevs];
    intros j Hj i Hi.
  - done.
  - apply lookup_segment in Hi as [[_ [= ?]]|[(i0 & _ & Hi)|[[_ ?]|(i1 & -> & Hi)]]];
      [lia| |done|].
    + by destruct (allowed_lookup allowed allowed_effect k evs i0 _ Hevs Hi).
    + destruct (decide (j = k)) as [->|Hne].
      * exists (S (length evs)). split; [lia|apply lookup_segment_sep].
      * destruct (IH j ltac:(lia) i1 Hi) as (i' & Hlt & Hi').
        exists (S (S (length evs + i'))). split; [lia|].
        by rewrite lookup_segment_tail.
  - apply lookup_segment in Hi as [[_ [= ?]]|[(i0 & _ & Hi)|[[_ ?]|(i1 & _ & Hi)]]];
      [lia| |done|done].
    by destruct (allowed_lookup allowed allowed_effect k evs i0 _ Hevs Hi).
  - apply lookup_begin_segment in Hi as [[_ [= ?]]|(i0 & _ & Hi)]; [lia|].
    by destruct (allowed_lookup allowed allowed_effect k evs i0 _ Hevs Hi).
Qed.

(** An effect in the history belongs to a stage that allows it, and every
    stage before that one has called its continuation by then. *)
Lemma pt_effect_stage (k n : nat) (tr : list Event) (r : StageResult) :
  pipeline_trace allowed k n tr r →
  ∀ i e, tr !! i = Some e → stage_effect e = true →
    ∃ j, k ≤ j ∧ allowed j e = true
         ∧ ∀ j', k ≤ j' → j' < j →
             ∃ i', i' < i ∧ tr !! i' = Some (ev_stage_done j').
Proof.
  induction 1 as [k|k n evs tr r Hevs Hpt IH|k n evs err Hevs|k n evs Hevs];
    intros i e Hi He.
  - done.
  - apply lookup_segment in Hi as [[_ ->]|[(i0 & _ & Hi)|[[_ ->]|(i1 & -> & Hi)]]];
      [done| |done|].
    + exists k. split; [lia|]. split; [|intros; lia].
      by destruct (allowed_lookup allowed allowed_effect k evs i0 _ Hevs Hi).
    + destruct (IH i1 e Hi He) as (j & Hj & Ha & Hbefore).
      exists j. split; [lia|]. split; [done|]. intros j' Hk Hlt.
      destruct (decide (j' = k)) as [->|Hne].
      * exists (S (length evs)). split; [lia|apply lookup_segment_sep].
      * destruct (Hbefore j' ltac:(lia) Hlt) as (i' & Hlt' & Hi').
        exists (S (S (length evs + i'))). split; [lia|].
        by rewrite lookup_segment_tail.
  - apply lookup_segment in Hi as [[_ ->]|[(i0 & _ & Hi)|[[_ ->]|(i1 & _ & Hi)]]];
      [done| |done|done].
    exists k. split; [lia|]. split; [|intros; lia].
    by destruct (allowed_lookup allowed allowed_effect k evs i0 _ Hevs Hi).
  - apply lookup_begin_segment in Hi as [[_ ->]|(i0 & _ & Hi)]; [done|].
    exists k. split; [lia|]. split; [|intros; lia].
    by destruct (allowed_lookup allowed allowed_effect k evs i0 _ Hevs Hi).
Qed.


End PipelineOrder.

(** The history [series] writes has the shape of a pipeline history. *)
Lemma series_pipeline_trace (allowed : nat → Event → bool)
    (tasks : list Storefront.Task) (k : nat) (sched : list EnvEvent)
    (w : Storefront.World) :
  (∀ i task, tasks !! i = Some task →
             behaves (fun e => allowed (k + i) e = true) task) →
  ∃ tr,
    Storefront.trace (Storefront.world (Storefront.series k tasks sched w))
    = Storefront.trace w ++ tr
    ∧ pipeline_trace allowed k (length tasks) tr
        (Storefront.result (Storefront.series k tasks sched w)).
Proof.
  revert k sched w. induction tasks as [|task tasks IH]; intros k sched w Hb.
  - exists []. simpl. rewrite app_nil_r. split; [done|constructor].
  - destruct (Hb 0 task eq_refl sched (Storefront.log w (ev_stage_begin k)))
      as (evs & Htr & Hevs).
    rewrite Nat.add_0_r in Hevs. simpl in Htr. simpl.
    destruct (Storefront.result
                (task sched (Storefront.log w (ev_stage_begin k)))) eqn:Hr.
    + destruct (IH (S k)
                  (Storefront.rest (task sched (Storefront.log w (ev_stage_begin k))))
                  (Storefront.log
                     (Storefront.world
                        (task sched (Storefront.log w (ev_stage_begin k))))
                     (ev_stage_done k)))
        as (tr & Htr' & Hpt).
      { intros i t Hi. replace (S k + i) with (k + S i) by lia. by apply Hb. }
      exists (ev_stage_begin k :: evs ++ ev_stage_done k :: tr).
      split; [|by constructor].
      rewrite Htr'. simpl. rewrite Htr. by rewrite <- !app_assoc.
    + exists (ev_stage_begin k :: evs ++ [ev_stage_error k err]).
      simpl. split; [|by constructor]. rewrite Htr. by rewrite <- !app_assoc.
    + exists (ev_stage_begin k :: evs). rewrite Hr.
      split; [|by constructor]. rewrite Htr. by rewrite <- !app_assoc.
Qed.

Lemma init_allowed_effect (k : nat) (e : Event) :
  init_allowed k e = true → stage_effect e = true.
Proof. destruct k as [|[|k]], e; done. Qed.

Lemma history_app (w w' : Storefront.World) (tr : list Event) :
  Storefront.trace w' = Storefront.trace w ++ tr → history w w' = tr.
Proof. intros H. unfold history. rewrite H. by rewrite drop_app_length. Qed.

(** *** What the stages of [init] add to the history *)

Lemma registerDependencies_spec (sched : list EnvEvent) (w : Storefront.World) :
  Storefront.result (Storefront.registerDependencies sched w) = cb_ok
  ∧ Storefront.registry (Storefront.world (Storefront.registerDependencies sched w))
    = Storefront.registry w ++ sc_dependencies (Storefront.config (Storefront.this w))
  ∧ Storefront.trace (Storefront.world (Storefront.registerDependencies sched w))
    = Storefront.trace w
      ++ (ev_registerDependency <$> sc_dependencies (Storefront.config (Storefront.this w)))
  ∧ Storefront.this (Storefront.world (Storefront.registerDependencies sched w))
    = Storefront.this w.
Proof.
  unfold Storefront.registerDependencies. simpl. split; [done|].
  generalize (sc_dependencies (Storefront.config (Storefront.this w))).
  intros deps. revert w. induction deps as [|d deps IH]; intros w; simpl.
  - by rewrite !app_nil_r.
  - destruct (IH (Storefront.log
                    (Storefront.set_registry w (Storefront.registry w ++ [d]))
                    (ev_registerDependency d))) as (-> & -> & ->).
    simpl. by rewrite <- !app_assoc.
Qed.

Lemma registerDependencies_behaves :
  behaves (fun e => init_allowed 0 e = true) Storefront.registerDependencies.
Proof.
  intros sched w. eexists. split; [apply registerDependencies_spec|].
  apply Forall_fmap, Forall_true. done.
Qed.

Lemma run_ReadyListeners_frame (ls : list ReadyListener) (w : Storefront.World) :
  Storefront.trace (foldl Storefront.run_ReadyListener w ls) = Storefront.trace w
  ∧ Storefront.init_called
      (Storefront.this (foldl Storefront.run_ReadyListener w ls))
    = Storefront.init_called (Storefront.this w).
Proof.
  revert w. induction ls as [|l ls IH]; intros w; [done|].
  simpl. destruct (IH (Storefront.run_ReadyListener w l)) as [-> ->].
  by destruct l.
Qed.

Lemma deliver_frame (w : Storefront.World) (ev : EnvEvent) :
  Storefront.init_called (Storefront.this (Storefront.deliver w ev))
  = Storefront.init_called (Storefront.this w)
  ∧ ∃ evs, Storefront.trace (Storefront.deliver w ev) = Storefront.trace w ++ evs
           ∧ Forall (fun e => init_allowed 1 e = true) evs.
Proof.
  destruct ev as [g| |e]; simpl.
  - unfold Storefront.emit_GATEWAY_READY.
    destruct (Storefront.gatewayObjects w !! g) as [o|].
    + destruct (run_ReadyListeners_frame (g_once_GATEWAY_READY o)
                  (Storefront.set_gatewayObjects w
                     (<[g:={| g_name := g_name o; g_updating := g_updating o;
                              g_once_GATEWAY_READY := [] |}]>
                        (Storefront.gatewayObjects w)))) as [-> ->].
      split; [done|]. exists []. by rewrite app_nil_r.
    + split; [done|]. exists []. by rewrite app_nil_r.
  - split; [done|]. exists []. by rewrite app_nil_r.
  - unfold Storefront.publish.
    destruct (foldl_log_frame
                (ev_addRoute (Route (path_one (e_path e)) (e_method e) []
                                (external (e_handler e))))
                (Process.ADD_ROUTE_listeners (Storefront.process w))
                (Storefront.set_process w
                   (Process.emit_ADD_ROUTE e (Storefront.process w))))
      as (-> & _ & _ & _ & ->).
    split; [done|]. eexists. split; [done|].
    apply Forall_replicate. done.
Qed.

Lemma waiting_frame (sched : list EnvEvent) (w : Storefront.World) :
  Storefront.init_called
    (Storefront.this (Storefront.world (Storefront.waiting sched w)))
  = Storefront.init_called (Storefront.this w)
  ∧ ∃ evs, Storefront.trace (Storefront.world (Storefront.waiting sched w))
           = Storefront.trace w ++ evs
           ∧ Forall (fun e => init_allowed 1 e = true) evs.
Proof.
  revert w. induction sched as [|ev sched IH]; intros w.
  - split; [done|]. exists []. by rewrite app_nil_r.
  - assert (∀ w' evs0,
              Storefront.init_called (Storefront.this w')
              = Storefront.init_called (Storefront.this w) →
              Storefront.trace w' = Storefront.trace w ++ evs0 →
              Forall (fun e => init_allowed 1 e = true) evs0 →
              Storefront.init_called
                (Storefront.this (Storefront.world (Storefront.waiting sched w')))
              = Storefront.init_called (Storefront.this w)
              ∧ ∃ evs, Storefront.trace
                         (Storefront.world (Storefront.waiting sched w'))
                       = Storefront.trace w ++ evs
                       ∧ Forall (fun e => init_allowed 1 e = true) evs) as Hrec.
    { intros w' evs0 Hc Ht Ha. destruct (IH w') as (-> & evs & -> & Hevs).
      split; [done|]. exists (evs0 ++ evs). rewrite Ht, <- app_assoc.
      split; [done|]. by apply Forall_app. }
    destruct ev as [g| |e].
    + destruct (deliver_frame w (gateway_emits_ready g)) as (Hc & evs0 & Ht & Ha).
      by apply (Hrec _ evs0).
    + simpl. destruct (Storefront.gateways_pending w).
      * apply (Hrec _ [ev_wait]); [done|done|]. by constructor.
      * split; [done|]. exists []. by rewrite app_nil_r.
    + destruct (deliver_frame w (publishes e)) as (Hc & evs0 & Ht & Ha).
      by apply (Hrec _ evs0).
Qed.

Lemma waitForGateways_frame (sched : list EnvEvent) (w : Storefront.World) :
  Storefront.init_called
    (Storefront.this (Storefront.world (Storefront.waitForGateways sched w)))
  = Storefront.init_called (Storefront.this w)
  ∧ ∃ evs, Storefront.trace (Storefront.world (Storefront.waitForGateways sched w))
           = Storefront.trace w ++ evs
           ∧ Forall (fun e => init_allowed 1 e = true) evs.
Proof.
  unfold Storefront.waitForGateways. destruct (Storefront.gateways_pending w).
  - destruct (waiting_frame sched (Storefront.log w ev_wait)) as (-> & evs & -> & Ha).
    split; [done|]. exists (ev_wait :: evs). simpl. rewrite <- app_assoc.
    split; [done|]. by constructor.
  - split; [done|]. exists []. by rewrite app_nil_r.
Qed.

Lemma addPageRoute_frame (sched : list EnvEvent) (w : Storefront.World) :
  Storefront.init_called
    (Storefront.this (Storefront.world (Storefront.addPageRoute sched w)))
  = Storefront.init_called (Storefront.this w)
  ∧ ∃ evs, Storefront.trace (Storefront.world (Storefront.addPageRoute sched w))
           = Storefront.trace w ++ evs
           ∧ Forall (fun e => init_allowed 6 e = true) evs.
Proof.
  unfold Storefront.addPageRoute. simpl.
  generalize (sc_pages (Storefront.config (Storefront.this w))).
  intros pcs. revert w. induction pcs as [|pc pcs IH]; intros w; simpl.
  - split; [done|]. exists []. by rewrite app_nil_r.
  - destruct (Storefront.pages (Storefront.this w) !! page_name pc) as [page|];
      [|apply IH].
    match goal with |- context [foldl _ ?w0 pcs] => destruct (IH w0) as (-> & evs & -> & Ha) end.
    split; [done|]. eexists (_ :: _ :: evs). simpl. rewrite <- !app_assoc. simpl.
    split; [done|]. by repeat constructor.
Qed.

(** Each of the seven stages adds only what [init_allowed] allows its
    place in the pipeline, and none of them resets the guard of [init]. *)
Lemma stages_behave (cfg : Config) (reCompile : Page → bool) (i : nat)
    (task : Storefront.Task) :
  Storefront.stages cfg reCompile !! i = Some task →
  behaves (fun e => init_allowed i e = true) task
  ∧ ∀ sched w,
      Storefront.init_called (Storefront.this (Storefront.world (task sched w)))
      = Storefront.init_called (Storefront.this w).
Proof.
  intros Hi.
  destruct i as [|[|[|[|[|[|[|i]]]]]]]; simpl in Hi; [..|done];
    injection Hi as <-.
  - split; [apply registerDependencies_behaves|].
    intros sched w. by destruct (registerDependencies_spec sched w) as (_ & _ & _ & ->).
  - split; intros sched w; by destruct (waitForGateways_frame sched w).
  - split; [|done]. intros sched w. eexists [_]. split; [done|]. by constructor.
  - split; intros sched w; unfold Storefront.addCustomHeaders; simpl;
      destruct (sc_customHeaders _); try done.
    + eexists [_]. split; [done|]. by constructor.
    + exists []. by rewrite app_nil_r.
  - split; [|done]. intros sched w. eexists [_]. split; [done|]. by constructor.
  - split; [|done]. intros sched w. exists []. by rewrite app_nil_r.
  - split; intros sched w; by destruct (addPageRoute_frame sched w).
Qed.


Lemma series_init_called (tasks : list Storefront.Task) (k : nat)
    (sched : list EnvEvent) (w : Storefront.World) :
  (∀ i task, tasks !! i = Some task →
     ∀ sched w,
       Storefront.init_called (Storefront.this (Storefront.world (task sched w)))
       = Storefront.init_called (Storefront.this w)) →
  Storefront.init_called
    (Storefront.this (Storefront.world (Storefront.series k tasks sched w)))
  = Storefront.init_called (Storefront.this w).
Proof.
  revert k sched w. induction tasks as [|task tasks IH]; intros k sched w H; [done|].
  simpl.
  pose proof (H 0 task eq_refl sched (Storefront.log w (ev_stage_begin k))) as H0.
  simpl in H0.
  destruct (Storefront.result (task sched (Storefront.log w (ev_stage_begin k)))).
  - rewrite IH; [done|]. intros i t Hi. by apply (H (S i)).
  - done.
  - done.
Qed.

(** The history of the body of [init]: the history of the series, and
    after it the call of [listen] when the series ends without an error. *)
Lemma init_series_history (allowed : nat → Event → bool) (cfg : Config)
    (stages : list Storefront.Task) (cb : option nat) (sched : list EnvEvent)
    (w : Storefront.World) :
  (∀ i task, stages !! i = Some task →
             behaves (fun e => allowed i e = true) task) →
  ∃ tr r port ipv4,
    pipeline_trace allowed 0 (length stages) tr r
    ∧ Storefront.trace (Storefront.init_series cfg stages cb sched w).1
      = Storefront.trace w
        ++ tr ++ (if decide (r = cb_ok) then [ev_listen port ipv4] else [])
    ∧ (Storefront.init_series cfg stages cb sched w).2
      = match r with cb_error err => throws err | _ => returns end.
Proof.
  intros Hb.
  destruct (series_pipeline_trace allowed stages 0 sched w Hb) as (tr & Htr & Hpt).
  unfold Storefront.init_series.
  destruct (Storefront.result (Storefront.series 0 stages sched w)) eqn:Hr.
  - exists tr, cb_ok, (sc_port (Storefront.config (Storefront.this
                         (Storefront.world (Storefront.series 0 stages sched w))))),
      (sc_ipv4 (Storefront.config (Storefront.this
                  (Storefront.world (Storefront.series 0 stages sched w))))).
    split; [done|]. simpl. rewrite Htr. by rewrite <- app_assoc.
  - exists tr, (cb_error err), 0%Z, false. split; [done|]. simpl.
    by rewrite Htr, app_nil_r.
  - exists tr, cb_pending, 0%Z, false. split; [done|]. simpl.
    by rewrite Htr, app_nil_r.
Qed.

Lemma elem_of_with_listen (tr : list Event) (r : StageResult) port ipv4 (e : Event) :
  e ∈ tr ++ (if decide (r = cb_ok) then [ev_listen port ipv4] else []) ↔
  e ∈ tr ∨ (r = cb_ok ∧ e = ev_listen port ipv4).
Proof.
  rewrite elem_of_app. destruct (decide (r = cb_ok)) as [Hr|Hr].
  - rewrite list_elem_of_singleton. tauto.
  - rewrite elem_of_nil. tauto.
Qed.

Lemma lookup_with_listen (tr : list Event) (r : StageResult) port ipv4 (i : nat)
    (e : Event) :
  (tr ++ (if decide (r = cb_ok) then [ev_listen port ipv4] else [])) !! i = Some e →
  tr !! i = Some e ∨ (r = cb_ok ∧ e = ev_listen port ipv4).
Proof.
  intros H. apply lookup_app_Some in H as [H|[_ H]]; [by left|].
  destruct (decide (r = cb_ok)); [|done]. right.
  apply list_elem_of_lookup_2, list_elem_of_singleton in H. done.
Qed.




(** The history of [init]: nothing when the guard is set, and otherwise
    the history of the seven stages, followed by the call of [listen] when
    all of them have called their continuation. *)
Lemma init_history (cfg : Config) (reCompile : Page → bool) (cb : option nat)
    (sched : list EnvEvent) (w : Storefront.World) :
  Storefront.trace (Storefront.init cfg reCompile cb sched w).1
  = Storefront.trace w ++ history w (Storefront.init cfg reCompile cb sched w).1
  ∧ (history w (Storefront.init cfg reCompile cb sched w).1 = []
     ∨ ∃ tr r port ipv4,
         pipeline_trace init_allowed 0 7 tr r
         ∧ history w (Storefront.init cfg reCompile cb sched w).1
           = tr ++ (if decide (r = cb_ok) then [ev_listen port ipv4] else [])).
Proof.
  unfold Storefront.init, Storefront.callableOnce.
  destruct (Storefront.init_called (Storefront.this w)).
  - simpl. unfold history. rewrite drop_all, app_nil_r. split; [done|by left].
  - destruct (init_series_history init_allowed cfg (Storefront.stages cfg reCompile)
                cb sched
                (Storefront.set_this w
                   (Storefront.set_init_called (Storefront.this w) true)))
      as (tr & r & port & ipv4 & Hpt & Htr & _).
    { intros i task Hi. by apply (stages_behave cfg reCompile). }
    simpl in Htr. rewrite (history_app _ _ _ Htr). split; [done|].
    right. by exists tr, r, port, ipv4.
Qed.

Lemma pipeline_route_stage (j : nat) (e : Event) :
  pipeline_route e = true → init_allowed j e = true → 2 ≤ j.
Proof.
  destruct j as [|[|j]]; [| |lia].
  - by destruct e.
  - destruct e as [| | | | | |[|? ? ? []]|]; done.
Qed.

Lemma pipeline_route_effect (e : Event) :
  pipeline_route e = true → stage_effect e = true.
Proof. by destruct e. Qed.

(** C5. In the history of [init] a stage begins only after the stage
    before it has called its continuation.  The first stage is the
    registration of the dependencies, which calls its continuation when
    all of them are registered, and every route the pipeline registers
    (debug script, health check, pages) comes after that and after the
    wait for the gateways.  When the wait for the gateways does not call
    its continuation, no such route is registered and [listen] is not
    called. *)
Theorem init_stage_order (cfg : Config) (reCompile : Page → bool) (cb : option nat)
    (sched : list EnvEvent) (w : Storefront.World) :
  let run := Storefront.init cfg reCompile cb sched w in
  let tr := history w run.1 in
  Storefront.trace run.1 = Storefront.trace w ++ tr
  ∧ (∀ j, precedes (ev_stage_done j) (ev_stage_begin (S j)) tr)
  ∧ (Storefront.stages cfg reCompile !! 0 = Some Storefront.registerDependencies
     ∧ ∀ sched' w',
         Storefront.result (Storefront.registerDependencies sched' w') = cb_ok
         ∧ Storefront.registry
             (Storefront.world (Storefront.registerDependencies sched' w'))
           = Storefront.registry w'
             ++ sc_dependencies (Storefront.config (Storefront.this w')))
  ∧ (∀ e, pipeline_route e = true →
          precedes (ev_stage_done 0) e tr ∧ precedes (ev_stage_done 1) e tr)
  ∧ (ev_stage_done 1 ∉ tr →
     (∀ e, pipeline_route e = true → e ∉ tr)
     ∧ (∀ port ipv4, ev_listen port ipv4 ∉ tr)).
Proof.
  intros run tr.
  destruct (init_history cfg reCompile cb sched w) as (Htr & Hh).
  fold run in Htr, Hh. fold tr in Htr, Hh.
  split; [done|].
  assert (Storefront.stages cfg reCompile !! 0 = Some Storefront.registerDependencies
          ∧ ∀ sched' w',
              Storefront.result (Storefront.registerDependencies sched' w') = cb_ok
              ∧ Storefront.registry
                  (Storefront.world (Storefront.registerDependencies sched' w'))
                = Storefront.registry w'
                  ++ sc_dependencies (Storefront.config (Storefront.this w')))
    as Hdeps.
  { split; [done|]. intros sched' w'.
    destruct (registerDependencies_spec sched' w') as (? & ? & _). done. }
  destruct Hh as [->|(tr0 & r & port & ipv4 & Hpt & ->)].
  { split; [by intros j i Hi|]. split; [done|].
    split; [by intros e _; split; intros i Hi|].
    intros _. split; [intros e _|intros p i]; apply not_elem_of_nil. }
  assert (∀ e, pipeline_route e = true →
            precedes (ev_stage_done 0) e
              (tr0 ++ (if decide (r = cb_ok) then [ev_listen port ipv4] else []))
            ∧ precedes (ev_stage_done 1) e
                (tr0 ++ (if decide (r = cb_ok) then [ev_listen port ipv4] else [])))
    as Hroute.
  { intros e He.
    assert (∀ i, (tr0 ++ (if decide (r = cb_ok) then [ev_listen port ipv4] else []))
                   !! i = Some e →
              ∀ j', j' < 2 →
                ∃ i', i' < i
                      ∧ (tr0 ++ (if decide (r = cb_ok)
                                 then [ev_listen port ipv4] else []))
                          !! i' = Some (ev_stage_done j')) as Hboth.
    { intros i Hi j' Hj'.
      apply lookup_with_listen in Hi as [Hi|[_ ->]]; [|done].
      destruct (pt_effect_stage init_allowed init_allowed_effect _ _ _ _ Hpt i e Hi
                  (pipeline_route_effect e He)) as (j & _ & Ha & Hbefore).
      pose proof (pipeline_route_stage j e He Ha) as Hj.
      destruct (Hbefore j' ltac:(lia) ltac:(lia)) as (i' & Hlt & Hi').
      exists i'. split; [done|]. by apply lookup_app_l_Some. }
    split; intros i Hi; apply (Hboth i Hi); lia. }
  split; [|split; [done|split; [done|]]].
  - intros j i Hi. apply lookup_with_listen in Hi as [Hi|[_ ?]]; [|done].
    destruct (pt_begin_after_done init_allowed init_allowed_effect _ _ _ _ Hpt j
                ltac:(lia) i Hi) as (i' & Hlt & Hi').
    exists i'. split; [done|]. by apply lookup_app_l_Some.
  - intros Hnot. split.
    + intros e He Hin. apply list_elem_of_lookup in Hin as [i Hi].
      destruct (Hroute e He) as [_ H1]. destruct (H1 i Hi) as (i' & _ & Hi').
      apply Hnot. by apply list_elem_of_lookup_2 in Hi'.
    + intros p i Hin. apply elem_of_with_listen in Hin as [Hin|[Hr _]].
      * by destruct (pt_no_listen init_allowed init_allowed_effect _ _ _ _ p i Hpt).
      * pose proof (proj1 (pt_ok_iff init_allowed init_allowed_effect _ _ _ _ Hpt) Hr)
          as Hall.
        apply Hnot. apply elem_of_with_listen. left. apply Hall. lia.
Qed.

Lemma init_stage_order_witness :
  let run := Storefront.init sample_config (fun _ => true) None
               [gateway_emits_ready 0; timer_fires; gateway_emits_ready 0; timer_fires]
               sample_world in
  (ev_stage_done 1 ∉ history sample_world run.1)
  ∧ (∀ e, pipeline_route e = true → e ∉ history sample_world run.1)
  ∧ (∀ port ipv4, ev_listen port ipv4 ∉ history sample_world run.1).
Proof.
  intros run.
  destruct (init_stage_order sample_config (fun _ => true) None
              [gateway_emits_ready 0; timer_fires; gateway_emits_ready 0; timer_fires]
              sample_world) as (_ & _ & _ & _ & H).
  assert (ev_stage_done 1 ∉ history sample_world run.1) as Hnot by compute_done.
  split; [exact Hnot|]. apply H. exact Hnot.
Defined.

(** After [init] the guard of [callableOnce] is set. *)
Lemma init_sets_guard (cfg : Config) (reCompile : Page → bool) (cb : option nat)
    (sched : list EnvEvent) (w : Storefront.World) :
  Storefront.init_called
    (Storefront.this (Storefront.init cfg reCompile cb sched w).1) = true.
Proof.
  unfold Storefront.init, Storefront.callableOnce.
  destruct (Storefront.init_called (Storefront.this w)) eqn:Hc; [done|].
  unfold Storefront.init_series.
  set (w' := Storefront.set_this w _).
  set (res := Storefront.series 0 (Storefront.stages cfg reCompile) sched w').
  assert (Storefront.init_called (Storefront.this (Storefront.world res)) = true)
    as Hs.
  { unfold res. rewrite series_init_called; [done|].
    intros i task Hi. by apply (stages_behave cfg reCompile i task). }
  clearbody res. by destruct (Storefront.result res).
Qed.

(** C6. Calling [init] again on a storefront on which it was called
    before, whatever became of the first call, does nothing: the call
    returns, the storefront and everything it reaches are as before, and
    the history gains nothing, so no stage runs again and [listen] is not
    called again. *)
Theorem init_idempotent (cfg : Config) (reCompile : Page → bool)
    (cb cb' : option nat) (sched sched' : list EnvEvent) (w : Storefront.World) :
  let w1 := (Storefront.init cfg reCompile cb sched w).1 in
  Storefront.init cfg reCompile cb' sched' w1 = (w1, returns)
  ∧ history w1 (Storefront.init cfg reCompile cb' sched' w1).1 = [].
Proof.
  intros w1.
  assert (Storefront.init cfg reCompile cb' sched' w1 = (w1, returns)) as H.
  { unfold Storefront.init at 1, Storefront.callableOnce.
    unfold w1. by rewrite init_sets_guard. }
  split; [done|]. rewrite H. simpl. unfold history. by rewrite drop_all.
Qed.

(** *** The round trip of the spec on the sample storefront

    Two gateways and one page at [/home]: once both gateways have emitted
    their ready event the pipeline completes, the routes are registered
    after the default middlewares, and the server listens. *)
Example sample_round_trip :
  let run := Storefront.init sample_config (fun _ => true) None
               [gateway_emits_ready 1; timer_fires; gateway_emits_ready 0; timer_fires]
               sample_world in
  run.2 = returns
  ∧ history sample_world run.1
    = [ ev_stage_begin 0;
        ev_registerDependency {| dependency_name := "lib"; dependency_link := "/lib.js" |};
        ev_stage_done 0;
        ev_stage_begin 1; ev_wait; ev_wait; ev_stage_done 1;
        ev_stage_begin 2;
        ev_addRoute (Route (path_one "/static/puzzle_debug.min.js") GET []
                       debugScriptHandler);
        ev_stage_done 2;
        ev_stage_begin 3; ev_stage_done 3;
        ev_stage_begin 4;
        ev_addRoute (Route (path_many ["/healthcheck"; "/liveness"]) GET []
                       healthCheckHandler);
        ev_stage_done 4;
        ev_stage_begin 5; ev_stage_done 5;
        ev_stage_begin 6;
        ev_addRoute (Route (path_one "/home") GET [] (pageGetHandler "home" None));
        ev_addRoute (Route (path_one "/home") POST [] (pagePostHandler "home"));
        ev_stage_done 6;
        ev_listen 4444 false ]
  ∧ (routes ∘ Server.app <$> Storefront.this_server run.1)
    = Some [ Route (path_one "/static/puzzle_debug.min.js") GET [] debugScriptHandler;
             Route (path_many ["/healthcheck"; "/liveness"]) GET [] healthCheckHandler;
             Route (path_one "/home") GET [] (pageGetHandler "home" None);
             Route (path_one "/home") POST [] (pagePostHandler "home") ]
  ∧ (selected <$> Storefront.this_server run.1) = Some (Some app_listen).
Proof. vm_compute. done. Qed.


(** The same storefront when only one of the two gateways ever becomes
    ready: the wait does not end, the server holds no route and has no
    listener. *)
Example sample_stalled :
  let run := Storefront.init sample_config (fun _ => true) None
               [gateway_emits_ready 0; timer_fires; gateway_emits_ready 0; timer_fires]
               sample_world in
  run.2 = returns
  ∧ history sample_world run.1
    = [ ev_stage_begin 0;
        ev_registerDependency {| dependency_name := "lib"; dependency_link := "/lib.js" |};
        ev_stage_done 0;
        ev_stage_begin 1; ev_wait; ev_wait; ev_wait ]
  ∧ Storefront.gatewaysReady (Storefront.this run.1) = 1
  ∧ (routes ∘ Server.app <$> Storefront.this_server run.1) = Some []
  ∧ (selected <$> Storefront.this_server run.1) = Some None.
Proof. vm_compute. done. Qed.

(** * Further properties of [Server] *)

(** X1. [close] twice is [close] once: after a [close] there is no
    listener left, so a second [close] finds nothing to do. *)
Theorem close_idempotent (cfg : Config) (s : Server.t) :
  Server.close cfg (Server.close cfg s) = Server.close cfg s.
Proof.
  destruct (Server.server s) as [l|] eqn:Hl.
  - destruct (close_active cfg s l Hl) as (Hnone & _).
    unfold Server.close at 1. by rewrite Hnone.
  - unfold Server.close. by rewrite !Hl.
Qed.


Lemma useProtocolOptions_Some (s : Server.t) (o : ISpdyConfiguration) :
  Server.useProtocolOptions s (Some o)
  = Server.set_spdyConfiguration s (Some (stored_options o)).
Proof. done. Qed.



(** * Further properties of the servers of a process *)

Lemma grows_refl (s : Server.t) : grows s s.
Proof. unfold grows. done. Qed.

Lemma grows_trans (s1 s2 s3 : Server.t) : grows s1 s2 → grows s2 s3 → grows s1 s3.
Proof. unfold grows. intros H1 H2. by etrans. Qed.

Lemma grows_app_use (s : Server.t) (path : option string) (h : Handler) :
  grows s (Server.set_app s (app_use (Server.app s) path h)).
Proof. unfold grows. simpl. by apply prefix_app_r. Qed.

Lemma addUse_grows (s : Server.t) (path : option string) (h : Handler) :
  grows s (Server.addUse s path h).
Proof. unfold Server.addUse. destruct (truthy_opt path); apply grows_app_use. Qed.

Lemma addRoute_grows (s : Server.t) path method h ms :
  grows s (Server.addRoute s path method h ms).
Proof. unfold grows. simpl. by apply prefix_app_r. Qed.

(** Every method but [close] keeps the layers of the application. *)
Lemma method_grows (cfg : Config) (o : Process.Op) (s : Server.t) :
  match o with
  | Process.op_useProtocolOptions _ options =>
      grows s (Server.useProtocolOptions s options)
  | Process.op_addUse _ path handler => grows s (Server.addUse s path handler)
  | Process.op_setStatic _ path source staticOptions =>
      grows s (Server.setStatic s path source staticOptions)
  | Process.op_addRoute _ path method handler middlewares =>
      grows s (Server.addRoute s path method handler middlewares)
  | Process.op_listen _ port cb ipv4 => grows s (Server.listen cfg s port cb ipv4)
  | Process.op_addCustomHeaders _ customHeaders =>
      grows s (Server.addCustomHeaders s customHeaders)
  | Process.op_emit e => grows s (Process.ADD_ROUTE_listener e s)
  | _ => True
  end.
Proof.
  destruct o; try done.
  - destruct options; by unfold grows.
  - apply addUse_grows.
  - unfold Server.setStatic. destruct staticOptions; apply addUse_grows.
  - apply addRoute_grows.
  - unfold grows. rewrite listen_app. done.
  - destruct customHeaders; [apply addUse_grows|apply grows_refl].
  - apply addRoute_grows.
Qed.

Lemma foldl_alter_grows (f : Server.t → Server.t) (refs : list nat)
    (l : list Server.t) (ref : nat) (s : Server.t) :
  (∀ z, grows z (f z)) → l !! ref = Some s →
  ∃ s', foldl (fun l r => alter f r l) l refs !! ref = Some s' ∧ grows s s'.
Proof.
  intros Hf. revert l s.
  induction refs as [|r refs IH]; intros l s Hl; simpl.
  - exists s. split; [done|apply grows_refl].
  - destruct (decide (r = ref)) as [->|Hne].
    + destruct (IH (alter f ref l) (f s)) as (s' & Hs' & Hg).
      { by rewrite list_lookup_alter_eq, Hl. }
      exists s'. split; [done|]. by apply (grows_trans s (f s) s').
    + apply IH. by rewrite list_lookup_alter_ne.
Qed.

Lemma alter_grows (f : Server.t → Server.t) (l : list Server.t) (r ref : nat)
    (s : Server.t) :
  grows s (f s) → l !! ref = Some s →
  ∃ s', alter f r l !! ref = Some s' ∧ grows s s'.
Proof.
  intros Hf Hl. destruct (decide (r = ref)) as [->|Hne].
  - exists (f s). by rewrite list_lookup_alter_eq, Hl.
  - exists s. rewrite list_lookup_alter_ne by done. split; [done|apply grows_refl].
Qed.

(** X4. Whatever is done in the process short of closing a server, be it
    a method call on this or another server, the construction of a server
    or an event on the route channel, a server keeps every layer it has, in
    the order of registration: later registrations come after, nothing is
    replaced, merged or dropped.  Only [close] removes layers. *)
Theorem layers_kept_until_close (cfg : Config) (p : Process.t) (o : Process.Op)
    (ref : nat) (s : Server.t) :
  is_close o = false → Process.servers p !! ref = Some s →
  ∃ s', Process.servers (Process.run_op cfg p o) !! ref = Some s' ∧ grows s s'.
Proof.
  intros Ho Hs.
  destruct o as [|r ?|r ? ?|r ? ? ?|r ? ? ? ?|r ? ? ?|r ?|r|e]; simpl; try done.
  - exists s. split; [by apply lookup_app_l_Some|apply grows_refl].
  - apply alter_grows; [|done].
    apply (method_grows cfg (Process.op_useProtocolOptions r options)).
  - apply alter_grows; [|done]. apply addUse_grows.
  - apply alter_grows; [|done].
    apply (method_grows cfg (Process.op_setStatic r path source staticOptions)).
  - apply alter_grows; [|done]. apply addRoute_grows.
  - apply alter_grows; [|done].
    apply (method_grows cfg (Process.op_listen r port cb ipv4)).
  - apply alter_grows; [|done].
    apply (method_grows cfg (Process.op_addCustomHeaders r customHeaders)).
  - unfold Process.emit_ADD_ROUTE.
    destruct (foldl_on_server (Process.ADD_ROUTE_listener e)
                (Process.ADD_ROUTE_listeners p) p) as [_ ->].
    apply foldl_alter_grows; [|done]. intros z. apply addRoute_grows.
Qed.

Lemma layers_kept_until_close_witness :
  let p := Process.run sample_config
             [Process.op_new;
              Process.op_addRoute 0 (path_one "/a") GET (external 1) []]
             Process.empty in
  ∃ s', Process.servers
          (Process.run_op sample_config p
             (Process.op_addRoute 0 (path_one "/a") GET (external 2) [])) !! 0
        = Some s'
        ∧ grows (Server.addRoute (Server.construct sample_config)
                   (path_one "/a") GET (external 1) []) s'.
Proof.
  intros p.
  apply (layers_kept_until_close sample_config p
           (Process.op_addRoute 0 (path_one "/a") GET (external 2) []) 0);
    reflexivity.
Defined.

Lemma default_first_op (cfg : Config) (p : Process.t) (o : Process.Op) :
  Forall (fun s => default_stack cfg `prefix_of` stack (Server.app s))
    (Process.servers p) →
  Forall (fun s => default_stack cfg `prefix_of` stack (Server.app s))
    (Process.servers (Process.run_op cfg p o)).
Proof.
  intros Hall.
  assert (∀ (f : Server.t → Server.t) r,
            (∀ z, grows z (f z)) →
            Forall (fun s => default_stack cfg `prefix_of` stack (Server.app s))
              (alter f r (Process.servers p))) as Halter.
  { intros f r Hf. apply Forall_alter; [done|].
    intros s _ Hs. specialize (Hf s). unfold grows in Hf. by etrans. }
  destruct o as [|r ?|r ? ?|r ? ? ?|r ? ? ? ?|r ? ? ?|r ?|r|e]; simpl.
  - apply Forall_app. split; [done|]. constructor; [|done].
    by rewrite construct_stack.
  - apply Halter. intros z.
    apply (method_grows cfg (Process.op_useProtocolOptions r options)).
  - apply Halter. intros z. apply addUse_grows.
  - apply Halter. intros z.
    apply (method_grows cfg (Process.op_setStatic r path source staticOptions)).
  - apply Halter. intros z. apply addRoute_grows.
  - apply Halter. intros z.
    apply (method_grows cfg (Process.op_listen r port cb ipv4)).
  - apply Halter. intros z.
    apply (method_grows cfg (Process.op_addCustomHeaders r customHeaders)).
  - apply Forall_alter; [done|]. intros s _ Hs.
    destruct (Server.server s) as [l|] eqn:Hl.
    + destruct (close_active cfg s l Hl) as (_ & _ & _ & ->). done.
    + unfold Server.close. by rewrite Hl.
  - unfold Process.emit_ADD_ROUTE.
    destruct (foldl_on_server (Process.ADD_ROUTE_listener e)
                (Process.ADD_ROUTE_listeners p) p) as [_ ->].
    generalize (Process.ADD_ROUTE_listeners p). intros refs.
    revert Hall. generalize (Process.servers p). intros l. revert l.
    induction refs as [|r refs IH]; intros l Hl; simpl; [done|].
    apply IH. apply Forall_alter; [done|].
    intros s _ Hs. pose proof (addRoute_grows s (path_one (e_path e)) (e_method e)
                                 (external (e_handler e)) []) as Hg.
    unfold grows in Hg. by etrans.
Qed.

Lemma default_first_run (cfg : Config) (ops : list Process.Op) (p : Process.t) :
  Forall (fun s => default_stack cfg `prefix_of` stack (Server.app s))
    (Process.servers p) →
  Forall (fun s => default_stack cfg `prefix_of` stack (Server.app s))
    (Process.servers (Process.run cfg ops p)).
Proof.
  revert p. induction ops as [|o ops IH]; intros p Hp; [done|].
  simpl. apply IH. by apply default_first_op.
Qed.

(** X5. In a process built by constructing servers and calling their
    methods, the application of every server begins with the default
    middleware stack at all times: before a [listen], after it, after a
    [close] and after any number of registrations and route events.
    Whatever is registered runs behind the default middlewares. *)
Theorem default_middlewares_first (cfg : Config) (ops : list Process.Op)
    (ref : nat) (s : Server.t) :
  Process.servers (Process.run cfg ops Process.empty) !! ref = Some s →
  default_stack cfg `prefix_of` stack (Server.app s).
Proof.
  intros Hs.
  assert (Forall (fun s => default_stack cfg `prefix_of` stack (Server.app s))
            (Process.servers (Process.run cfg ops Process.empty))) as Hall.
  { apply default_first_run. constructor. }
  by apply (Forall_lookup_1 _ _ _ _ Hall Hs).
Qed.

Lemma default_middlewares_first_witness :
  default_stack sample_config
  `prefix_of`
  stack (Server.app
           (Server.addRoute
              (Server.close sample_config
                 (Server.listen sample_config
                    (Server.addRoute (Server.construct sample_config)
                       (path_one "/a") GET (external 1) [])
                    80 None false))
              (path_one "/b") GET (external 2) [])).
Proof.
  apply (default_middlewares_first sample_config
           [Process.op_new;
            Process.op_addRoute 0 (path_one "/a") GET (external 1) [];
            Process.op_listen 0 80 None false;
            Process.op_close 0;
            Process.op_addRoute 0 (path_one "/b") GET (external 2) []] 0).
  reflexivity.
Defined.

(** X7. An event on the route channel reaches every server constructed so
    far, whether it listens or not, and no server constructed later: a
    server constructed after the event starts with the default middlewares
    alone. *)
Theorem ADD_ROUTE_reaches_servers_constructed_before (cfg : Config)
    (ops : list Process.Op) (e : AddRouteEvent) :
  Process.servers
    (Process.run cfg (ops ++ [Process.op_emit e; Process.op_new]) Process.empty)
  = (Process.ADD_ROUTE_listener e
       <$> Process.servers (Process.run cfg ops Process.empty))
    ++ [Server.construct cfg]
  ∧ stack (Server.app (Server.construct cfg)) = default_stack cfg.
Proof.
  split; [|apply construct_stack].
  unfold Process.run. rewrite foldl_app. simpl.
  fold (Process.run cfg ops Process.empty).
  by rewrite emit_servers by (by apply run_subscribed).
Qed.

(** * Further properties of [Storefront] *)

Lemma createGateways_objects (gcs : list IGatewayConfiguration)
    (w : Storefront.World) :
  Storefront.gatewayObjects (foldl Storefront.createGateway w gcs)
  = Storefront.gatewayObjects w
    ++ ((fun gc => {| g_name := gateway_name gc; g_updating := true;
                      g_once_GATEWAY_READY := [incrementGatewaysReady] |}) <$> gcs)
  ∧ Storefront.gatewaysReady (Storefront.this (foldl Storefront.createGateway w gcs))
    = Storefront.gatewaysReady (Storefront.this w)
  ∧ Storefront.config (Storefront.this (foldl Storefront.createGateway w gcs))
    = Storefront.config (Storefront.this w)
  ∧ Storefront.process (foldl Storefront.createGateway w gcs) = Storefront.process w
  ∧ Storefront.server (Storefront.this (foldl Storefront.createGateway w gcs))
    = Storefront.server (Storefront.this w)
  ∧ Storefront.init_called (Storefront.this (foldl Storefront.createGateway w gcs))
    = Storefront.init_called (Storefront.this w).
Proof.
  revert w. induction gcs as [|gc gcs IH]; intros w; simpl.
  - by rewrite app_nil_r.
  - destruct (IH (Storefront.createGateway w gc)) as (-> & -> & -> & -> & -> & ->).
    simpl. by rewrite <- app_assoc.
Qed.








Lemma run_ReadyListeners_count (ls : list ReadyListener) (w : Storefront.World) :
  Storefront.gatewaysReady (Storefront.this (foldl Storefront.run_ReadyListener w ls))
  = Storefront.gatewaysReady (Storefront.this w) + length ls
  ∧ Storefront.gatewayObjects (foldl Storefront.run_ReadyListener w ls)
    = Storefront.gatewayObjects w
  ∧ Storefront.gateways (Storefront.this (foldl Storefront.run_ReadyListener w ls))
    = Storefront.gateways (Storefront.this w).
Proof.
  revert w. induction ls as [|l ls IH]; intros w; simpl.
  - split; [lia|done].
  - destruct (IH (Storefront.run_ReadyListener w l)) as (-> & -> & ->).
    destruct l. simpl. split; [lia|done].
Qed.

Lemma sum_list_insert {A} (f : A → nat) (l : list A) (g : nat) (o o' : A) :
  l !! g = Some o →
  sum_list (f <$> <[g:=o']> l) + f o = sum_list (f <$> l) + f o'.
Proof.
  revert g. induction l as [|x l IH]; intros g Hg; [done|].
  destruct g as [|g]; simpl in Hg.
  - injection Hg as ->.
    change (<[0:=o']> (o :: l)) with (o' :: l).
    rewrite !fmap_cons.
    change (f o' + sum_list (f <$> l) + f o = f o + sum_list (f <$> l) + f o'). lia.
  - specialize (IH g Hg).
    change (<[S g:=o']> (x :: l)) with (x :: <[g:=o']> l).
    rewrite !fmap_cons.
    change (f x + sum_list (f <$> <[g:=o']> l) + f o
            = f x + sum_list (f <$> l) + f o'). lia.
Qed.

(** An event from outside moves ready listeners into the counter and
    leaves the gateway map alone. *)
Lemma deliver_conserves (w : Storefront.World) (ev : EnvEvent) :
  Storefront.gatewaysReady (Storefront.this (Storefront.deliver w ev))
  + armed (Storefront.deliver w ev)
  = Storefront.gatewaysReady (Storefront.this w) + armed w
  ∧ Storefront.gatewaysReady (Storefront.this w)
    ≤ Storefront.gatewaysReady (Storefront.this (Storefront.deliver w ev))
  ∧ Storefront.gateways (Storefront.this (Storefront.deliver w ev))
    = Storefront.gateways (Storefront.this w).
Proof.
  destruct ev as [g| |e]; simpl.
  - unfold Storefront.emit_GATEWAY_READY.
    destruct (Storefront.gatewayObjects w !! g) as [o|] eqn:Hg; [|split; [done|split; [lia|done]]].
    destruct (run_ReadyListeners_count (g_once_GATEWAY_READY o)
                (Storefront.set_gatewayObjects w
                   (<[g:={| g_name := g_name o; g_updating := g_updating o;
                            g_once_GATEWAY_READY := [] |}]>
                      (Storefront.gatewayObjects w)))) as (Hc & Ho & Hm).
    unfold armed. rewrite Hc, Ho, Hm. simpl.
    pose proof (sum_list_insert (length ∘ g_once_GATEWAY_READY)
                  (Storefront.gatewayObjects w) g o
                  {| g_name := g_name o; g_updating := g_updating o;
                     g_once_GATEWAY_READY := [] |} Hg) as Hsum.
    simpl in Hsum. split; [lia|]. split; [lia|done].
  - split; [done|]. split; [lia|done].
  - destruct (publish_frame e w) as (Ht & Ho & _). unfold armed.
    rewrite Ht, Ho. split; [done|]. split; [lia|done].
Qed.

Lemma construct_armed (config : IStorefrontConfig) (_server : nat) (p : Process.t) :
  armed (Storefront.construct config _server p) = length (sc_gateways config).
Proof.
  unfold armed, Storefront.construct, Storefront.bootstrap,
    Storefront.createStorefrontPagesAndGateways.
  set (w1 := Storefront.on_this_server _ _).
  destruct (createGateways_objects (sc_gateways config) w1) as (Ho & _ & Hc & _).
  change (Storefront.config (Storefront.this w1)) with config in *.
  simpl in Hc. rewrite Hc.
  destruct (createPages_frame (sc_pages config)
              (foldl Storefront.createGateway w1 (sc_gateways config)))
    as (_ & _ & ->).
  change (Storefront.gatewayObjects w1) with (@nil GatewayObject) in Ho.
  rewrite app_nil_l in Ho. rewrite Ho, <- list_fmap_compose.
  etrans; [apply (sum_list_fmap_const (sc_gateways config) 1)|lia].
Qed.

Lemma construct_gatewaysReady (config : IStorefrontConfig) (_server : nat)
    (p : Process.t) :
  Storefront.gatewaysReady (Storefront.this (Storefront.construct config _server p))
  = 0.
Proof.
  unfold Storefront.construct, Storefront.bootstrap,
    Storefront.createStorefrontPagesAndGateways.
  set (w1 := Storefront.on_this_server _ _).
  destruct (createGateways_objects (sc_gateways config) w1) as (_ & Hr & Hc & _).
  change (Storefront.config (Storefront.this w1)) with config in *.
  simpl in Hc. rewrite Hc.
  destruct (createPages_frame (sc_pages config)
              (foldl Storefront.createGateway w1 (sc_gateways config)))
    as (_ & -> & _).
  by rewrite Hr.
Qed.

(** X9. Whatever the gateway names and whatever happens outside, every
    configured gateway is counted at most once: the ready counter and the
    number of ready listeners still installed always add up to the number
    of configured gateways.  So the counter never exceeds that number, it
    never goes down, and the gateway map is never touched by an event. *)
Theorem ready_counter_conserved (config : IStorefrontConfig) (_server : nat)
    (p : Process.t) (evs : list EnvEvent) :
  let w := Storefront.deliver_all evs (Storefront.construct config _server p) in
  Storefront.gatewaysReady (Storefront.this w) + armed w
  = length (sc_gateways config)
  ∧ Storefront.gateways (Storefront.this w)
    = Storefront.gateways (Storefront.this (Storefront.construct config _server p))
  ∧ ∀ ev, Storefront.gatewaysReady (Storefront.this w)
          ≤ Storefront.gatewaysReady (Storefront.this (Storefront.deliver w ev)).
Proof.
  intros w. unfold w.
  assert (∀ w0,
            Storefront.gatewaysReady (Storefront.this (Storefront.deliver_all evs w0))
            + armed (Storefront.deliver_all evs w0)
            = Storefront.gatewaysReady (Storefront.this w0) + armed w0
            ∧ Storefront.gateways (Storefront.this (Storefront.deliver_all evs w0))
              = Storefront.gateways (Storefront.this w0)) as Hall.
  { induction evs as [|ev evs IH]; intros w0; [done|].
    simpl. destruct (IH (Storefront.deliver w0 ev)) as (-> & ->).
    by destruct (deliver_conserves w0 ev) as (-> & _ & ->). }
  destruct (Hall (Storefront.construct config _server p)) as (-> & ->).
  rewrite construct_armed.
  rewrite construct_gatewaysReady.
  split; [done|]. split; [done|].
  intros ev. by destruct (deliver_conserves
                            (Storefront.deliver_all evs
                               (Storefront.construct config _server p)) ev)
    as (_ & ? & _).
Qed.

Lemma waiting_after_overshoot (sched : list EnvEvent) (w : Storefront.World) :
  size (Storefront.gateways (Storefront.this w))
  < Storefront.gatewaysReady (Storefront.this w) →
  Storefront.result (Storefront.waiting sched w) = cb_pending.
Proof.
  revert w. induction sched as [|ev sched IH]; intros w Hlt; [done|].
  assert (Storefront.gateways_pending w = true) as Hp.
  { unfold Storefront.gateways_pending. apply negb_true_iff, Nat.eqb_neq. lia. }
  assert (∀ ev', size (Storefront.gateways
                         (Storefront.this (Storefront.deliver w ev')))
                 < Storefront.gatewaysReady
                     (Storefront.this (Storefront.deliver w ev'))) as Hstep.
  { intros ev'. destruct (deliver_conserves w ev') as (_ & Hle & ->). lia. }
  destruct ev as [g| |e].
  - apply IH, (Hstep (gateway_emits_ready g)).
  - simpl. rewrite Hp. by apply IH.
  - apply IH, (Hstep (publishes e)).
Qed.

(** X10. The wait compares for equality, and the counter only goes up:
    once more gateways have been counted than the gateway map has names,
    [waitForGateways] never calls its continuation, whatever happens
    afterwards and however often the timer fires. *)
Theorem wait_never_ends_after_overshoot (w : Storefront.World)
    (sched : list EnvEvent) :
  size (Storefront.gateways (Storefront.this w))
  < Storefront.gatewaysReady (Storefront.this w) →
  Storefront.result (Storefront.waitForGateways sched w) = cb_pending.
Proof.
  intros Hlt. unfold Storefront.waitForGateways.
  assert (Storefront.gateways_pending w = true) as ->.
  { unfold Storefront.gateways_pending. apply negb_true_iff, Nat.eqb_neq. lia. }
  by apply waiting_after_overshoot.
Qed.

Lemma wait_never_ends_after_overshoot_witness :
  Storefront.result
    (Storefront.waitForGateways [timer_fires; gateway_emits_ready 0; timer_fires]
       (Storefront.deliver_all [gateway_emits_ready 0; gateway_emits_ready 1]
          (Storefront.construct same_name_config 0
             (Process.new_Server sample_config Process.empty).2)))
  = cb_pending.
Proof.
  apply wait_never_ends_after_overshoot. vm_compute. lia.
Defined.

(** *** What [init] leaves alone *)

Lemma run_ReadyListeners_static (ls : list ReadyListener) (w : Storefront.World) :
  static (Storefront.this (foldl Storefront.run_ReadyListener w ls))
  = static (Storefront.this w).
Proof.
  revert w. induction ls as [|l ls IH]; intros w; [done|].
  simpl. rewrite IH. by destruct l.
Qed.

Lemma deliver_static (w : Storefront.World) (ev : EnvEvent) :
  static (Storefront.this (Storefront.deliver w ev)) = static (Storefront.this w).
Proof.
  destruct ev as [g| |e]; simpl; [|done|].
  - unfold Storefront.emit_GATEWAY_READY.
    destruct (Storefront.gatewayObjects w !! g) as [o|]; [|done].
    by rewrite run_ReadyListeners_static.
  - by destruct (publish_frame e w) as (-> & _).
Qed.

Lemma waiting_static (sched : list EnvEvent) (w : Storefront.World) :
  static (Storefront.this (Storefront.world (Storefront.waiting sched w)))
  = static (Storefront.this w).
Proof.
  revert w. induction sched as [|ev sched IH]; intros w; [done|].
  destruct ev as [g| |e].
  - simpl. rewrite IH. apply (deliver_static w (gateway_emits_ready g)).
  - simpl. destruct (Storefront.gateways_pending w); [by rewrite IH|done].
  - simpl. rewrite IH. apply (deliver_static w (publishes e)).
Qed.

Lemma addPageRoute_this (sched : list EnvEvent) (w : Storefront.World) :
  Storefront.this (Storefront.world (Storefront.addPageRoute sched w))
  = Storefront.this w.
Proof.
  unfold Storefront.addPageRoute. simpl.
  generalize (sc_pages (Storefront.config (Storefront.this w))).
  intros pcs. revert w. induction pcs as [|pc pcs IH]; intros w; [done|].
  simpl. rewrite IH.
  by destruct (Storefront.pages (Storefront.this w) !! page_name pc).
Qed.

Lemma stages_static (cfg : Config) (reCompile : Page → bool) (i : nat)
    (task : Storefront.Task) :
  Storefront.stages cfg reCompile !! i = Some task →
  ∀ sched w,
    static (Storefront.this (Storefront.world (task sched w)))
    = static (Storefront.this w).
Proof.
  intros Hi sched w.
  destruct i as [|[|[|[|[|[|[|i]]]]]]]; simpl in Hi; [..|done];
    injection Hi as <-; try done.
  - by destruct (registerDependencies_spec sched w) as (_ & _ & _ & ->).
  - unfold Storefront.waitForGateways.
    destruct (Storefront.gateways_pending w); [|done].
    by rewrite waiting_static.
  - unfold Storefront.addCustomHeaders. simpl.
    by destruct (sc_customHeaders _).
  - by rewrite addPageRoute_this.
Qed.

Lemma series_preserves {B} (f : Storefront.t → B) (tasks : list Storefront.Task)
    (k : nat) (sched : list EnvEvent) (w : Storefront.World) :
  (∀ i task, tasks !! i = Some task →
     ∀ sched w,
       f (Storefront.this (Storefront.world (task sched w)))
       = f (Storefront.this w)) →
  f (Storefront.this (Storefront.world (Storefront.series k tasks sched w)))
  = f (Storefront.this w).
Proof.
  revert k sched w. induction tasks as [|task tasks IH]; intros k sched w H; [done|].
  simpl.
  pose proof (H 0 task eq_refl sched (Storefront.log w (ev_stage_begin k))) as H0.
  simpl in H0.
  destruct (Storefront.result (task sched (Storefront.log w (ev_stage_begin k)))).
  - rewrite IH; [done|]. intros i t Hi. by apply (H (S i)).
  - done.
  - done.
Qed.

Lemma init_static (cfg : Config) (reCompile : Page → bool) (cb : option nat)
    (sched : list EnvEvent) (w : Storefront.World) :
  static (Storefront.this (Storefront.init cfg reCompile cb sched w).1)
  = static (Storefront.this w).
Proof.
  unfold Storefront.init, Storefront.callableOnce.
  destruct (Storefront.init_called (Storefront.this w)); [done|].
  unfold Storefront.init_series.
  set (w' := Storefront.set_this w _).
  set (res := Storefront.series 0 (Storefront.stages cfg reCompile) sched w').
  assert (static (Storefront.this (Storefront.world res)) = static (Storefront.this w))
    as Hs.
  { unfold res. rewrite (series_preserves static); [done|].
    intros i task Hi. by apply (stages_static cfg reCompile i task). }
  clearbody res. by destruct (Storefront.result res).
Qed.

(** X11. Neither [init] nor anything that happens outside changes what the
    constructor has set up in the storefront: the server it uses, its
    configuration, its pages and its gateway map stay as they are.  Of the
    storefront's own fields only the ready counter and the guard of [init]
    ever change. *)
Theorem init_keeps_what_constructor_built (cfg : Config) (reCompile : Page → bool)
    (cb : option nat) (evs sched : list EnvEvent) (w : Storefront.World) :
  let w' := (Storefront.init cfg reCompile cb sched (Storefront.deliver_all evs w)).1 in
  Storefront.server (Storefront.this w') = Storefront.server (Storefront.this w)
  ∧ Storefront.config (Storefront.this w') = Storefront.config (Storefront.this w)
  ∧ Storefront.pages (Storefront.this w') = Storefront.pages (Storefront.this w)
  ∧ Storefront.gateways (Storefront.this w') = Storefront.gateways (Storefront.this w).
Proof.
  intros w'.
  assert (static (Storefront.this w') = static (Storefront.this w)) as H.
  { unfold w'. rewrite init_static. clear w'. revert w.
    induction evs as [|ev evs IH]; intros w; [done|].
    simpl. rewrite IH. apply deliver_static. }
  unfold static in H. by injection H as -> -> -> ->.
Qed.


(** *** The stages after the wait *)










(** *** A run of [init] to the end *)





















(** *** Pages and the rest of the constructor *)








